(** * Temp_gauge.py: a resizable temperature gauge

    A shallow embedding of [Temp_gauge.py].  The program keeps one number,
    [self.value], and draws a semicircular dial on a Tk canvas.  Python's
    numbers are embedded as they are: [int] as [Z], [float] as the kernel's
    binary64 numbers with their IEEE-754 operations, and the mixed
    arithmetic of the two as Python coerces it.  The canvas is the list of
    items created on it since the last [delete("all")]. *)

From Stdlib Require Import ZArith Floats String Ascii List Bool Lia.
From Stdlib Require Import DecimalString.
From Stdlib Require Import Rbase Rfunctions Lra.
Import ListNotations.
Local Open Scope Z_scope.

(** ** Python numbers and the builtins the program calls *)

Module Py.

(** A Python number is an [int] or a [float]. *)
Inductive num : Type :=
| PyInt (z : Z)
| PyFloat (f : float).

(** [float(i)] of an int: the nearest binary64 number, ties to even
    (exact up to 2^53 in magnitude).  Python raises OverflowError beyond
    the largest float, where this gives an infinity; every int of the
    program is far below. *)
Definition int_to_float (z : Z) : float :=
  SF2Prim (binary_normalize prec emax z 0 false).

Definition to_float (x : num) : float :=
  match x with
  | PyInt z => int_to_float z
  | PyFloat f => f
  end.

(** An int as an unrounded binary number, mantissa times 2^0. *)
Definition exact_int (z : Z) : spec_float :=
  match z with
  | Z0 => S754_zero false
  | Zpos p => S754_finite false p 0
  | Zneg p => S754_finite true p 0
  end.

(** [a / b] on ints is the correctly rounded quotient.  The divisors of
    the program are the non-zero constants 2, 3 and 100; Python's
    ZeroDivisionError has no counterpart here. *)
Definition int_truediv (a b : Z) : float :=
  SF2Prim (SFdiv prec emax (exact_int a) (exact_int b)).

Definition add (x y : num) : num :=
  match x, y with
  | PyInt a, PyInt b => PyInt (a + b)
  | _, _ => PyFloat (to_float x + to_float y)
  end.

Definition sub (x y : num) : num :=
  match x, y with
  | PyInt a, PyInt b => PyInt (a - b)
  | _, _ => PyFloat (to_float x - to_float y)
  end.

Definition mul (x y : num) : num :=
  match x, y with
  | PyInt a, PyInt b => PyInt (a * b)
  | _, _ => PyFloat (to_float x * to_float y)
  end.

Definition truediv (x y : num) : num :=
  match x, y with
  | PyInt a, PyInt b => PyFloat (int_truediv a b)
  | _, _ => PyFloat (to_float x / to_float y)
  end.

(** Comparisons.  Between a float and an int Python compares the exact
    values; through [int_to_float] that is what happens for ints up to
    2^53, and the program compares with 0, 20, 30 and 100 only. *)
Definition lt (x y : num) : bool :=
  match x, y with
  | PyInt a, PyInt b => a <? b
  | _, _ => (to_float x <? to_float y)%float
  end.

Definition gt (x y : num) : bool := lt y x.

Definition le (x y : num) : bool :=
  match x, y with
  | PyInt a, PyInt b => a <=? b
  | _, _ => (to_float x <=? to_float y)%float
  end.

Definition eq (x y : num) : bool :=
  match x, y with
  | PyInt a, PyInt b => a =? b
  | _, _ => (to_float x =? to_float y)%float
  end.

(** [min(a, b)]: the first argument unless the second is smaller. *)
Definition min (x y : num) : num := if lt y x then y else x.

(** [range(start, stop, step)]; a zero step raises ValueError in Python
    and is the empty list here. *)
Fixpoint range_from (n : nat) (start step : Z) : list Z :=
  match n with
  | O => []
  | S k => start :: range_from k (start + step) step
  end.

Definition range (start stop step : Z) : list Z :=
  if 0 <? step then
    range_from (Z.to_nat ((stop - start + step - 1) / step)) start step
  else if step <? 0 then
    range_from (Z.to_nat ((start - stop - step - 1) / (- step))) start step
  else [].

(** [str(i)] of an int. *)
Definition str (z : Z) : string := NilZero.string_of_int (Z.to_int z).

(** [math.radians(x)] is [x * (pi / 180)], as CPython computes it. *)
Definition pi : float := 0x1.921fb54442d18p+1%float.

Definition radians (x : num) : float :=
  (to_float x * (pi / 180))%float.

(** *** [float(text)]

    The builtin on a string of ASCII characters: surrounding whitespace
    is dropped; an underscore may stand between two digits; then an
    optional sign and either [inf], [infinity] or [nan] in any case, or
    a decimal number with an optional exponent.  The value is the
    binary64 number nearest to the decimal one, ties to even; too large
    a number gives an infinity.  [None] is Python's ValueError.
    Characters outside ASCII (which Python first maps to ASCII digits
    and spaces where it can) are not recognised. *)

Definition is_space (c : ascii) : bool :=
  let n := N_of_ascii c in
  ((9 <=? n) && (n <=? 13) || (28 <=? n) && (n <=? 32))%N.

Definition is_digit (c : ascii) : bool :=
  let n := N_of_ascii c in ((48 <=? n) && (n <=? 57))%N.

Fixpoint lstrip (s : list ascii) : list ascii :=
  match s with
  | c :: t => if is_space c then lstrip t else s
  | [] => []
  end.

Definition strip (s : list ascii) : list ascii :=
  rev (lstrip (rev (lstrip s))).

(** Underscores: each needs a digit before it and a digit after it, and
    is then removed.  [prev] is the character just read. *)
Fixpoint drop_underscores (prev : option ascii) (s : list ascii)
  : option (list ascii) :=
  match s with
  | [] => Some []
  | c :: t =>
      if Ascii.eqb c "_" then
        match prev, t with
        | Some p, n :: _ =>
            if is_digit p && is_digit n then drop_underscores (Some c) t
            else None
        | _, _ => None
        end
      else option_map (cons c) (drop_underscores (Some c) t)
  end.

Fixpoint span_digits (s : list ascii) : list ascii * list ascii :=
  match s with
  | c :: t =>
      if is_digit c then let (d, r) := span_digits t in (c :: d, r)
      else ([], s)
  | [] => ([], [])
  end.

Definition digits_value (ds : list ascii) : Z :=
  fold_left (fun acc c => 10 * acc + (Z.of_N (N_of_ascii c) - 48)) ds 0.

Definition split_sign (s : list ascii) : bool * list ascii :=
  match s with
  | "+"%char :: t => (false, t)
  | "-"%char :: t => (true, t)
  | _ => (false, s)
  end.

Definition lower (c : ascii) : ascii :=
  let n := N_of_ascii c in
  if ((65 <=? n) && (n <=? 90))%N then ascii_of_N (n + 32) else c.

Definition is_word (w : string) (s : list ascii) : bool :=
  String.eqb w (string_of_list_ascii (map lower s)).

(** A decimal number [digits [. digits] [e [sign] digits]] with at least
    one digit before the exponent: its digits as an integer and its
    power of ten. *)
Definition parse_decimal (s : list ascii) : option (Z * Z) :=
  let (ip, r1) := span_digits s in
  let (fp, r2) :=
    match r1 with
    | "."%char :: t => span_digits t
    | _ => ([], r1)
    end in
  match ip ++ fp with
  | [] => None
  | ds =>
      let m := digits_value ds in
      let k := Z.of_nat (List.length fp) in
      match r2 with
      | [] => Some (m, - k)
      | c :: t =>
          if Ascii.eqb (lower c) "e" then
            let (neg, t') := split_sign t in
            match span_digits t' with
            | ((_ :: _) as ed, []) =>
                let x := digits_value ed in
                Some (m, (if neg then - x else x) - k)
            | _ => None
            end
          else None
      end
  end.

(** The float nearest to [(-1)^neg * m * 10^e], for [0 <= m]. *)
Definition decimal_to_float (neg : bool) (m e : Z) : float :=
  match m with
  | Zpos p =>
      if 0 <=? e then
        SF2Prim (binary_normalize prec emax
                   ((if neg then - m else m) * 10 ^ e) 0 false)
      else
        SF2Prim (SFdiv prec emax (S754_finite neg p 0)
                   (exact_int (10 ^ (- e))))
  | _ => if neg then PrimFloat.neg_zero else PrimFloat.zero
  end.

Definition float_of_chars (s : list ascii) : option float :=
  match drop_underscores None (strip s) with
  | None => None
  | Some t =>
      let (neg, u) := split_sign t in
      if is_word "inf" u || is_word "infinity" u then
        Some (if neg then PrimFloat.neg_infinity else PrimFloat.infinity)
      else if is_word "nan" u then Some PrimFloat.nan
      else
        match parse_decimal u with
        | Some (m, e) => Some (decimal_to_float neg m e)
        | None => None
        end
  end.

Definition float (text : string) : option float :=
  float_of_chars (list_ascii_of_string text).

(** *** [f"{x:.1f}"]

    One digit after the point, the exact binary value rounded to
    tenths, ties to even; an int is converted to a float first. *)
Definition tenths (m : positive) (e : Z) : Z :=
  if 0 <=? e then Zpos m * 2 ^ e * 10
  else
    let d := 2 ^ (- e) in
    let q := (Zpos m * 10) / d in
    match (2 * ((Zpos m * 10) mod d) ?= d) with
    | Lt => q
    | Gt => q + 1
    | Eq => if Z.even q then q else q + 1
    end.

Definition format_1f (x : num) : string :=
  let sign (s : bool) := if s then "-"%string else ""%string in
  match Prim2SF (to_float x) with
  | S754_nan => "nan"
  | S754_infinity s => sign s ++ "inf"
  | S754_zero s => sign s ++ "0.0"
  | S754_finite s m e =>
      let t := tenths m e in
      sign s ++ str (t / 10) ++ "." ++ str (t mod 10)
  end.

End Py.

Declare Scope py_scope.
Delimit Scope py_scope with py.
Bind Scope py_scope with Py.num.
Coercion Py.PyInt : Z >-> Py.num.
Infix "+" := Py.add : py_scope.
Infix "-" := Py.sub : py_scope.
Infix "*" := Py.mul : py_scope.
Infix "/" := Py.truediv : py_scope.
Infix "<" := Py.lt : py_scope.
Infix ">" := Py.gt : py_scope.

(** ** Constants of the program *)

Definition MIN_VALUE : Z := 0.
Definition MAX_VALUE : Z := 100.
Definition NORMAL_MIN : Z := 20.
Definition NORMAL_MAX : Z := 30.

(** [GAUGE_VERTICAL_OFFSET = 0.65], the float nearest to it. *)
Definition GAUGE_VERTICAL_OFFSET : Py.num := Py.PyFloat 0x1.4cccccccccccdp-1.
Definition GAUGE_SIZE_RATIO : Z := 3.

Definition TICK_INTERVAL : Z := 20.
Definition TICK_LENGTH : Z := 10.
Definition LABEL_OFFSET : Z := 15.
Definition NEEDLE_MARGIN : Z := 25.
Definition VALUE_TEXT_OFFSET : Z := 40.
Definition SHADOW_OFFSET : Z := 4.
Definition ARC_WIDTH : Z := 6.
Definition CENTER_CIRCLE_RADIUS : Z := 8.
Definition SHADOW_THICKNESS : Z := 8.

(** A Tk font: family, size and, for some, a style. *)
Definition font : Type := string * Z * option string.
Definition FONT_MAIN : font := ("Helvetica", 12, Some "bold")%string.
Definition FONT_LABEL : font := ("Helvetica", 10, None)%string.
Definition FONT_DISPLAY : font := ("Helvetica", 16, Some "bold")%string.

Definition COLOR_GAUGE_OUTLINE : string := "#444".
Definition COLOR_TICK : string := "#333".
Definition COLOR_TEXT : string := "#222".
Definition COLOR_SHADOW : string := "#ddd".
Definition COLOR_NEEDLE_COLD : string := "#0077b6".
Definition COLOR_NEEDLE_NORMAL : string := "#2d6a4f".
Definition COLOR_NEEDLE_HOT : string := "#d90429".

(** ** The canvas and the application object *)

(** One constructor per canvas method the program calls, with the
    positional coordinates first and then the keyword options of the call
    ([None]: the option is not given). *)
Inductive item : Type :=
| create_oval (x0 y0 x1 y1 : Py.num)
    (outline : string) (width : option Z) (fill : option string)
| create_arc (x0 y0 x1 y1 : Py.num)
    (start extent : Z) (style : string) (width : Z) (outline : string)
| create_line (x0 y0 x1 y1 : Py.num)
    (fill : string) (width : Z) (capstyle : option string)
| create_text (x y : Py.num) (text : string) (fnt : font) (fill : string).

(** The fields of [GaugeApp] the methods read and write: [self.value],
    the text in [self.entry], the size Tk reports for [self.canvas] and
    the items on it, oldest first. *)
Record App : Type := mkApp {
  value : Py.num;
  entry : string;
  winfo_width : Z;
  winfo_height : Z;
  canvas : list item
}.

Definition set_value (v : Py.num) (app : App) : App :=
  mkApp v (entry app) (winfo_width app) (winfo_height app) (canvas app).

Definition set_entry (text : string) (app : App) : App :=
  mkApp (value app) text (winfo_width app) (winfo_height app) (canvas app).

Definition set_size (w h : Z) (app : App) : App :=
  mkApp (value app) (entry app) w h (canvas app).

(** [self.canvas.delete("all")] followed by the creation of [items]. *)
Definition set_canvas (items : list item) (app : App) : App :=
  mkApp (value app) (entry app) (winfo_width app) (winfo_height app) items.

(** The expression both the tick loop and the needle use for the angle,
    in degrees, of a value on the dial. *)
Definition angle_of (v : Py.num) : Py.num :=
  (180 + (v - MIN_VALUE) * 180 / (MAX_VALUE - MIN_VALUE))%py.

(** The [if]/[elif]/[else] that picks the colour of needle and readout. *)
Definition needle_color (v : Py.num) : string :=
  if (v < NORMAL_MIN)%py then COLOR_NEEDLE_COLD
  else if (v > NORMAL_MAX)%py then COLOR_NEEDLE_HOT
  else COLOR_NEEDLE_NORMAL.

(** [center_x], [center_y] and [radius] of [draw_gauge]. *)
Definition center_x (width : Z) : Py.num := (width / 2)%py.
Definition center_y (height : Z) : Py.num := (height * GAUGE_VERTICAL_OFFSET)%py.
Definition radius (width height : Z) : Py.num :=
  (Py.min width height / GAUGE_SIZE_RATIO)%py.

(** Exceptions the program raises and catches. *)
Inductive exn : Type := ValueError.

(** How a block of statements ends: normally, or by an exception; either
    way with the application as the block left it. *)
Inductive outcome : Type :=
| Normal (app : App)
| Raised (e : exn) (app : App).

Section Gauge.

(** [math.cos] and [math.sin], the platform's, and the builtin [float]
    on strings ([None]: it raises ValueError); [Py.float] is the latter
    on ASCII text. *)
Variables cos sin : float -> float.
Variable float_of_str : string -> option float.

(** The body of the loop [for val in range(...)]: a tick and its label. *)
Definition draw_tick (cx cy r : Py.num) (val : Z) : list item :=
  let angle := angle_of val in
  let rad := Py.radians angle in
  let c := Py.PyFloat (cos rad) in
  let s := Py.PyFloat (sin rad) in
  let x1 := (cx + (r - TICK_LENGTH) * c)%py in
  let y1 := (cy + (r - TICK_LENGTH) * s)%py in
  let x2 := (cx + r * c)%py in
  let y2 := (cy + r * s)%py in
  [ create_line x1 y1 x2 y2 COLOR_TICK 2 None;
    create_text (x1 - LABEL_OFFSET * c)%py (y1 - LABEL_OFFSET * s)%py
      (Py.str val) FONT_LABEL COLOR_TEXT ].

(** The items [draw_gauge] creates, in order, for a canvas of the given
    size and a value. *)
Definition gauge_items (width height : Z) (v : Py.num) : list item :=
  let cx := center_x width in
  let cy := center_y height in
  let r := radius width height in
  let pointer_angle := angle_of v in
  let rad := Py.radians pointer_angle in
  let pointer_x := (cx + (r - NEEDLE_MARGIN) * Py.PyFloat (cos rad))%py in
  let pointer_y := (cy + (r - NEEDLE_MARGIN) * Py.PyFloat (sin rad))%py in
  let color := needle_color v in
  [ create_oval (cx - r + SHADOW_OFFSET)%py (cy - r + SHADOW_OFFSET)%py
      (cx + r + SHADOW_OFFSET)%py (cy + r + SHADOW_OFFSET)%py
      COLOR_SHADOW (Some SHADOW_THICKNESS) None;
    create_arc (cx - r)%py (cy - r)%py (cx + r)%py (cy + r)%py
      180 180 "arc" ARC_WIDTH COLOR_GAUGE_OUTLINE ]
  ++ flat_map (draw_tick cx cy r)
       (Py.range MIN_VALUE (MAX_VALUE + 1) TICK_INTERVAL)
  ++ [ create_line cx cy pointer_x pointer_y color 5 (Some "round"%string);
       create_oval (cx - CENTER_CIRCLE_RADIUS)%py (cy - CENTER_CIRCLE_RADIUS)%py
         (cx + CENTER_CIRCLE_RADIUS)%py (cy + CENTER_CIRCLE_RADIUS)%py
         "" None (Some "#111"%string);
       create_text cx (cy + VALUE_TEXT_OFFSET)%py
         (Py.format_1f v ++ " °C") FONT_DISPLAY color ].

Definition draw_gauge (app : App) : App :=
  set_canvas (gauge_items (winfo_width app) (winfo_height app) (value app)) app.

(** [on_resize(self, event)]: the event is not looked at. *)
Definition on_resize (event : Z * Z) (app : App) : App :=
  draw_gauge app.

(** The [try] block of [update_value]. *)
Definition update_try (app : App) : outcome :=
  match float_of_str (entry app) with
  | None => Raised ValueError app
  | Some f =>
      let val := Py.PyFloat f in
      if (val < MIN_VALUE)%py || (val > MAX_VALUE)%py then
        Raised ValueError app
      else
        let app := set_value val app in
        Normal (draw_gauge app)
  end.

(** The [except ValueError] block. *)
Definition error_items (width height : Z) : list item :=
  [ create_text (width / 2)%py (height / 2)%py
      "Enter a number between 0–100!" FONT_MAIN COLOR_NEEDLE_HOT ].

Definition update_except (app : App) : App :=
  set_canvas (error_items (winfo_width app) (winfo_height app)) app.

Definition update_value (app : App) : App :=
  match update_try app with
  | Normal app' => app'
  | Raised ValueError app' => update_except app'
  end.

(** [GaugeApp.__init__] on a canvas Tk reports as [w] by [h]. *)
Definition init (w h : Z) : App :=
  draw_gauge (mkApp 25 "" w h []).

(** What the event loop delivers: the canvas got a new size (Tk has
    resized it when the handler runs), the user edited the entry, the
    user pressed the button. *)
Inductive event : Type :=
| Configure (w h : Z)
| Typed (text : string)
| Clicked.

Definition handle (app : App) (e : event) : App :=
  match e with
  | Configure w h => on_resize (w, h) (set_size w h app)
  | Typed text => set_entry text app
  | Clicked => update_value app
  end.

Definition run (es : list event) (app : App) : App :=
  fold_left handle es app.

End Gauge.

(** ** Notions the properties are stated with *)

(** [v] lies in the interval [[MIN_VALUE, MAX_VALUE]] of the dial. *)
Definition in_range (v : Py.num) : bool :=
  Py.le MIN_VALUE v && Py.le v MAX_VALUE.

(** The tick marks are the lines in the tick colour, their labels the
    texts in the text colour. *)
Definition is_tick (it : item) : bool :=
  match it with
  | create_line _ _ _ _ fill _ _ => String.eqb fill COLOR_TICK
  | _ => false
  end.

Definition is_label (it : item) : bool :=
  match it with
  | create_text _ _ _ _ fill => String.eqb fill COLOR_TEXT
  | _ => false
  end.

(** The needle is the line with the round cap, the readout the text in
    the display font. *)
Definition is_needle (it : item) : bool :=
  match it with
  | create_line _ _ _ _ _ _ (Some _) => true
  | _ => false
  end.

Definition is_readout (it : item) : bool :=
  match it with
  | create_text _ _ _ (_, _, Some _) _ => true
  | _ => false
  end.

(** Any two functions can stand for [math.cos] and [math.sin] in the
    properties below; the examples run with these polynomials, which
    follow them on the lower half circle (angles from pi to 2 pi). *)
Definition poly_sin (t : float) : float :=
  let t2 := (t * t)%float in
  (t * (1 - t2 / 6 * (1 - t2 / 20 * (1 - t2 / 42 * (1 - t2 / 72)))))%float.

Definition poly_cos (t : float) : float :=
  let t2 := (t * t)%float in
  (1 - t2 / 2 * (1 - t2 / 12 * (1 - t2 / 30 * (1 - t2 / 56))))%float.

Definition three_half_pi : float := (3 * Py.pi / 2)%float.

Definition sample_cos (x : float) : float := poly_sin (x - three_half_pi)%float.
Definition sample_sin (x : float) : float := (- poly_cos (x - three_half_pi))%float.


(** ** Real values of binary64 numbers

    What the properties of the angle are stated and proved with: the real
    number a finite float stands for, where a real number lies between two
    consecutive integers, and rounding to nearest with ties to even. *)

(** Two to the power [e]. *)
Definition bpow (e : Z) : R := powerRZ 2 e.

(** The real number a finite float stands for (0 for the others). *)
Definition SF2R (x : spec_float) : R :=
  match x with
  | S754_finite s m e =>
      ((if s then - IZR (Zpos m) else IZR (Zpos m)) * bpow e)%R
  | _ => 0%R
  end.

(** [x] lies in [[m, m + 1)], at the place [l] says: on [m], below, on or
    above the middle. *)
Definition located (x : R) (m : Z) (l : location) : Prop :=
  match l with
  | loc_Exact => x = IZR m
  | loc_Inexact Lt => (IZR m < x < IZR m + / 2)%R
  | loc_Inexact Eq => x = (IZR m + / 2)%R
  | loc_Inexact Gt => (IZR m + / 2 < x < IZR m + 1)%R
  end.

(** [n] is an integer nearest to [x], the even one of the two when [x] is
    half way. *)
Definition rne (x : R) (n : Z) : Prop :=
  (IZR n - / 2 <= x <= IZR n + / 2)%R /\
  (x = (IZR n - / 2)%R \/ x = (IZR n + / 2)%R -> Z.even n = true).

(** [r] is [x] rounded to binary64, ties to even: with [2^(k-1) <= x < 2^k]
    the result is a multiple of [2^fexp(k)], the nearest to [x]. *)
Definition rounds_to (x r : R) : Prop :=
  exists k n : Z,
    (bpow (k - 1) <= x < bpow k)%R /\
    rne (x * bpow (- fexp prec emax k)) n /\
    r = (IZR n * bpow (fexp prec emax k))%R.

(** [located] for the records the shifts of [SpecFloat] work on. *)
Definition located_rec (x : R) (r : shr_record) : Prop :=
  0 <= shr_m r /\ located x (shr_m r) (loc_of_shr_record r).

(** A zero or a valid positive finite number. *)
Definition nonneg (x : spec_float) : Prop :=
  match x with
  | S754_zero _ => True
  | S754_finite false m e => bounded prec emax m e = true
  | _ => False
  end.

(** The floats 180.0 and 100.0. *)
Definition c180 : spec_float := S754_finite false 6333186975989760 (-45).
Definition c100 : spec_float := S754_finite false 7036874417766400 (-46).

(** * Properties *)

(** ** The order of binary64 numbers *)

Lemma SFcompare_swap (x y : spec_float) :
  SFcompare y x = option_map CompOpp (SFcompare x y).
Proof.
  destruct x as [sx|sx| |sx mx ex], y as [sy|sy| |sy my ey]; simpl;
    try reflexivity;
    try (destruct sx; reflexivity); try (destruct sy; reflexivity);
    try (destruct sx, sy; reflexivity).
  destruct sx, sy; simpl; try reflexivity;
    rewrite (Z.compare_antisym ex ey); destruct (ex ?= ey); simpl; try reflexivity;
    change (PosDef.Pos.compare_cont Eq my mx) with (Pos.compare my mx);
    change (PosDef.Pos.compare_cont Eq mx my) with (Pos.compare mx my);
    rewrite (Pos.compare_antisym mx my); try reflexivity.
Qed.

Lemma SFleb_not_ltb (x y : spec_float) : SFleb x y = true -> SFltb y x = false.
Proof.
  unfold SFleb, SFltb. rewrite (SFcompare_swap x y).
  destruct (SFcompare x y) as [[ | | ]|]; simpl; congruence.
Qed.

(** Two numbers that compare equal are the same, or both a zero. *)
Lemma SFeqb_true (x y : spec_float) :
  SFeqb x y = true ->
  x = y \/ exists s t, x = S754_zero s /\ y = S754_zero t.
Proof.
  unfold SFeqb.
  destruct x as [sx|sx| |sx mx ex], y as [sy|sy| |sy my ey]; simpl;
    try discriminate; try (destruct sx; discriminate);
    try (destruct sy; discriminate).
  - right. now exists sx, sy.
  - destruct sx, sy; try discriminate; now left.
  - change (PosDef.Pos.compare_cont Eq mx my) with (Pos.compare mx my).
    destruct sx, sy; try discriminate;
      destruct (Z.compare_spec ex ey) as [->| | ]; try discriminate;
      destruct (Pos.compare_spec mx my) as [->| | ]; try discriminate;
      now left.
Qed.

Lemma SFcompare_zero (s t : bool) (z : spec_float) :
  SFcompare (S754_zero s) z = SFcompare (S754_zero t) z.
Proof. now destruct z. Qed.

Lemma SFeqb_compare (x y z : spec_float) :
  SFeqb x y = true -> SFcompare x z = SFcompare y z.
Proof.
  intros H. destruct (SFeqb_true _ _ H) as [->|(s & t & -> & ->)].
  - reflexivity.
  - apply SFcompare_zero.
Qed.

Lemma SFeqb_ltb_l (x y z : spec_float) :
  SFeqb x y = true -> SFltb x z = SFltb y z.
Proof. intros H. unfold SFltb. now rewrite (SFeqb_compare x y z H). Qed.

Lemma SFeqb_ltb_r (x y z : spec_float) :
  SFeqb x y = true -> SFltb z x = SFltb z y.
Proof.
  intros H. unfold SFltb.
  now rewrite (SFcompare_swap x z), (SFcompare_swap y z), (SFeqb_compare x y z H).
Qed.

(** Below [lo * 2^e] is not above [hi * 2^e] when [lo <= hi]. *)
Lemma SFltb_between (x : spec_float) (lo hi : positive) (e : Z) :
  (lo <= hi)%positive ->
  SFltb (S754_finite false hi e) x = true ->
  SFltb x (S754_finite false lo e) = false.
Proof.
  intros Hle. unfold SFltb.
  destruct x as [s|s| |s m ex]; simpl; try discriminate.
  - destruct s; [discriminate|reflexivity].
  - destruct s; [discriminate|].
    rewrite (Z.compare_antisym ex e).
    destruct (Z.compare_spec ex e) as [->| | ]; simpl;
      try discriminate; try reflexivity.
    change (PosDef.Pos.compare_cont Eq hi m) with (Pos.compare hi m).
    change (PosDef.Pos.compare_cont Eq m lo) with (Pos.compare m lo).
    destruct (Pos.compare_spec hi m); try discriminate.
    destruct (Pos.compare_spec m lo); try reflexivity; lia.
Qed.

(** A number that is not a NaN and not below [y] is at least [y]. *)
Lemma SFltb_false_leb (x y : spec_float) :
  SFeqb x x = true -> SFeqb y y = true ->
  SFltb x y = false -> SFleb y x = true.
Proof.
  unfold SFeqb, SFltb, SFleb. rewrite (SFcompare_swap x y).
  destruct x as [sx|sx| |sx mx ex], y as [sy|sy| |sy my ey]; simpl;
    try discriminate; intros _ _;
    try (destruct sx; simpl; congruence);
    try (destruct sy; simpl; congruence);
    try (destruct sx, sy; simpl; congruence).
  destruct sx, sy; simpl; try congruence;
    destruct (ex ?= ey); simpl; try congruence;
    destruct (PosDef.Pos.compare_cont Eq mx my); simpl; congruence.
Qed.

(** ** The order of Python numbers against the constants *)

Lemma float_of_MIN_VALUE :
  Prim2SF (Py.int_to_float MIN_VALUE) = S754_zero false.
Proof. reflexivity. Qed.

Lemma float_of_NORMAL_MIN :
  Prim2SF (Py.int_to_float NORMAL_MIN) = S754_finite false 5629499534213120 (-48).
Proof. reflexivity. Qed.

Lemma float_of_NORMAL_MAX :
  Prim2SF (Py.int_to_float NORMAL_MAX) = S754_finite false 8444249301319680 (-48).
Proof. reflexivity. Qed.

Lemma float_of_MAX_VALUE :
  Prim2SF (Py.int_to_float MAX_VALUE) = S754_finite false 7036874417766400 (-46).
Proof. reflexivity. Qed.

Lemma gt_max_not_lt_min (v : Py.num) :
  Py.gt v NORMAL_MAX = true -> Py.lt v NORMAL_MIN = false.
Proof.
  destruct v as [z|f]; unfold Py.gt; simpl.
  - unfold NORMAL_MAX, NORMAL_MIN. lia.
  - rewrite !FloatAxioms.ltb_spec, float_of_NORMAL_MIN, float_of_NORMAL_MAX.
    apply SFltb_between. lia.
Qed.

Lemma le_not_gt (x y : Py.num) : Py.le x y = true -> Py.gt x y = false.
Proof.
  unfold Py.gt.
  destruct x as [a|f], y as [b|g]; simpl; try lia;
    rewrite FloatAxioms.leb_spec, FloatAxioms.ltb_spec; apply SFleb_not_ltb.
Qed.

(** A float equal to one of the two bounds passes the guard of
    [update_value]. *)
Lemma boundary_passes_guard (f : float) :
  Py.eq (Py.PyFloat f) MIN_VALUE = true \/ Py.eq (Py.PyFloat f) MAX_VALUE = true ->
  Py.lt (Py.PyFloat f) MIN_VALUE = false /\ Py.gt (Py.PyFloat f) MAX_VALUE = false.
Proof.
  unfold Py.gt. simpl. rewrite !FloatAxioms.eqb_spec, !FloatAxioms.ltb_spec.
  rewrite float_of_MIN_VALUE, float_of_MAX_VALUE.
  intros [H|H].
  - now rewrite (SFeqb_ltb_l _ _ _ H), (SFeqb_ltb_r _ _ _ H).
  - now rewrite (SFeqb_ltb_l _ _ _ H), (SFeqb_ltb_r _ _ _ H).
Qed.

(** The guard of [update_value] lets a number through that is in the
    range, and one it lets through is in the range unless it is a NaN
    (the one number that is not equal to itself). *)
Lemma in_range_passes_guard (v : Py.num) :
  in_range v = true ->
  Py.lt v MIN_VALUE = false /\ Py.gt v MAX_VALUE = false.
Proof.
  unfold in_range. rewrite andb_true_iff. intros [H0 H1]. split.
  - exact (le_not_gt _ _ H0).
  - exact (le_not_gt _ _ H1).
Qed.

Lemma guard_passed_in_range (v : Py.num) :
  Py.eq v v = true ->
  Py.lt v MIN_VALUE = false -> Py.gt v MAX_VALUE = false ->
  in_range v = true.
Proof.
  unfold in_range, Py.gt. destruct v as [z|f]; simpl.
  - unfold MIN_VALUE, MAX_VALUE. lia.
  - rewrite FloatAxioms.eqb_spec, !FloatAxioms.ltb_spec, !FloatAxioms.leb_spec. intros Hn H0 H1.
    rewrite andb_true_iff. split; apply SFltb_false_leb; trivial;
      try (rewrite float_of_MIN_VALUE); try (rewrite float_of_MAX_VALUE);
      reflexivity.
Qed.

(** ** The gauge *)

Section GaugeFacts.

Variables cos sin : float -> float.
Variable float_of_str : string -> option float.

(** The three ways through [update_value]. *)
Lemma update_value_accepts (app : App) (f : float) :
  float_of_str (entry app) = Some f ->
  Py.lt (Py.PyFloat f) MIN_VALUE = false ->
  Py.gt (Py.PyFloat f) MAX_VALUE = false ->
  update_value cos sin float_of_str app =
  draw_gauge cos sin (set_value (Py.PyFloat f) app).
Proof.
  intros Hp Hlo Hhi. unfold update_value, update_try.
  now rewrite Hp, Hlo, Hhi.
Qed.

Lemma update_value_no_parse (app : App) :
  float_of_str (entry app) = None ->
  update_value cos sin float_of_str app = update_except app.
Proof.
  intros Hp. unfold update_value, update_try.
  now rewrite Hp.
Qed.

Lemma update_value_out_of_range (app : App) (f : float) :
  float_of_str (entry app) = Some f ->
  Py.lt (Py.PyFloat f) MIN_VALUE = true \/ Py.gt (Py.PyFloat f) MAX_VALUE = true ->
  update_value cos sin float_of_str app = update_except app.
Proof.
  intros Hp Hr. unfold update_value, update_try.
  rewrite Hp.
  destruct Hr as [-> | ->]; [reflexivity|now rewrite orb_true_r].
Qed.

Local Abbreviation gauge_items := (gauge_items cos sin).
Local Abbreviation draw_gauge := (draw_gauge cos sin).
Local Abbreviation update_value := (update_value cos sin float_of_str).
Local Abbreviation handle := (handle cos sin float_of_str).
Local Abbreviation run := (run cos sin float_of_str).

(** The loop of [draw_gauge] unrolled. *)
Lemma gauge_items_unrolled (w h : Z) (v : Py.num) :
  let cx := center_x w in
  let cy := center_y h in
  let r := radius w h in
  let rad := Py.radians (angle_of v) in
  gauge_items w h v =
    [ create_oval (cx - r + SHADOW_OFFSET)%py (cy - r + SHADOW_OFFSET)%py
        (cx + r + SHADOW_OFFSET)%py (cy + r + SHADOW_OFFSET)%py
        COLOR_SHADOW (Some SHADOW_THICKNESS) None;
      create_arc (cx - r)%py (cy - r)%py (cx + r)%py (cy + r)%py
        180 180 "arc" ARC_WIDTH COLOR_GAUGE_OUTLINE ]
    ++ flat_map (draw_tick cos sin cx cy r) [0; 20; 40; 60; 80; 100]
    ++ [ create_line cx cy
           (cx + (r - NEEDLE_MARGIN) * Py.PyFloat (cos rad))%py
           (cy + (r - NEEDLE_MARGIN) * Py.PyFloat (sin rad))%py
           (needle_color v) 5 (Some "round"%string);
         create_oval (cx - CENTER_CIRCLE_RADIUS)%py (cy - CENTER_CIRCLE_RADIUS)%py
           (cx + CENTER_CIRCLE_RADIUS)%py (cy + CENTER_CIRCLE_RADIUS)%py
           "" None (Some "#111"%string);
         create_text cx (cy + VALUE_TEXT_OFFSET)%py
           (Py.format_1f v ++ " °C") FONT_DISPLAY (needle_color v) ].
Proof. reflexivity. Qed.

Lemma gauge_items_length (w h : Z) (v : Py.num) :
  List.length (gauge_items w h v) = 17%nat.
Proof. reflexivity. Qed.

Lemma gauge_is_not_error (w h w' h' : Z) (v : Py.num) :
  gauge_items w h v <> error_items w' h'.
Proof.
  intros E. apply (f_equal (@List.length item)) in E.
  rewrite gauge_items_length in E. discriminate E.
Qed.

Lemma needle_color_cases (v : Py.num) :
  needle_color v = COLOR_NEEDLE_COLD \/
  needle_color v = COLOR_NEEDLE_HOT \/
  needle_color v = COLOR_NEEDLE_NORMAL.
Proof.
  unfold needle_color.
  destruct (Py.lt v NORMAL_MIN); [now left|].
  destruct (Py.gt v NORMAL_MAX); [right; now left|right; now right].
Qed.

Lemma needle_is_no_tick (v : Py.num) :
  String.eqb (needle_color v) COLOR_TICK = false.
Proof. destruct (needle_color_cases v) as [->|[->| ->]]; reflexivity. Qed.

Lemma needle_is_no_label (v : Py.num) :
  String.eqb (needle_color v) COLOR_TEXT = false.
Proof. destruct (needle_color_cases v) as [->|[->| ->]]; reflexivity. Qed.

(** [update_value] either shows the gauge for a new value or the error
    message with the old one. *)
Lemma update_value_cases (app : App) :
  (exists f, float_of_str (entry app) = Some f /\
             Py.lt (Py.PyFloat f) MIN_VALUE = false /\
             Py.gt (Py.PyFloat f) MAX_VALUE = false /\
             update_value app = draw_gauge (set_value (Py.PyFloat f) app))
  \/ ((float_of_str (entry app) = None \/
       exists f, float_of_str (entry app) = Some f /\
                 (Py.lt (Py.PyFloat f) MIN_VALUE = true \/
                  Py.gt (Py.PyFloat f) MAX_VALUE = true))
      /\ update_value app = update_except app).
Proof.
  destruct (float_of_str (entry app)) as [f|] eqn:Hp.
  - destruct (Py.lt (Py.PyFloat f) MIN_VALUE) eqn:Hlo.
    + right. split.
      * right. exists f. split; [reflexivity|now left].
      * apply (update_value_out_of_range app f Hp). now left.
    + destruct (Py.gt (Py.PyFloat f) MAX_VALUE) eqn:Hhi.
      * right. split.
        -- right. exists f. split; [reflexivity|now right].
        -- apply (update_value_out_of_range app f Hp). now right.
      * left. exists f. repeat split; trivial.
        now apply update_value_accepts.
  - right. split; [now left|now apply update_value_no_parse].
Qed.

(** Only the button changes the value, and what it stores has passed
    the guard. *)
Lemma handle_value (app : App) (e : event) :
  value (handle app e) = value app \/
  exists f, e = Clicked /\ value (handle app e) = Py.PyFloat f /\
            float_of_str (entry app) = Some f /\
            Py.lt (Py.PyFloat f) MIN_VALUE = false /\
            Py.gt (Py.PyFloat f) MAX_VALUE = false.
Proof.
  destruct e as [w h|text| ]; simpl; try now left.
  destruct (update_value_cases app) as [(f & Hp & Hlo & Hhi & E)|[_ E]].
  - right. exists f. rewrite E. now repeat split.
  - left. now rewrite E.
Qed.

Lemma run_passes_guard (es : list event) (app : App) :
  Py.lt (value app) MIN_VALUE = false ->
  Py.gt (value app) MAX_VALUE = false ->
  Py.lt (value (run es app)) MIN_VALUE = false /\
  Py.gt (value (run es app)) MAX_VALUE = false.
Proof.
  revert app. induction es as [|e es IH]; intros app Hlo Hhi.
  - now split.
  - simpl. apply IH;
      destruct (handle_value app e) as [E|(f & _ & E & _ & Hl & Hh)];
      rewrite E; assumption.
Qed.

(** C2: whatever the value, needle and readout are drawn in the cold
    colour when it is below [NORMAL_MIN], in the hot colour when it is
    above [NORMAL_MAX] and in the normal colour when it is between the two
    bounds, and in exactly one of the three colours. *)
Theorem needle_color_three_way (w h : Z) (v : Py.num) :
  let color := needle_color v in
  (Py.lt v NORMAL_MIN = true -> color = COLOR_NEEDLE_COLD) /\
  (Py.gt v NORMAL_MAX = true -> color = COLOR_NEEDLE_HOT) /\
  (Py.le NORMAL_MIN v = true /\ Py.le v NORMAL_MAX = true ->
   color = COLOR_NEEDLE_NORMAL) /\
  ((color = COLOR_NEEDLE_COLD /\ color <> COLOR_NEEDLE_HOT /\
    color <> COLOR_NEEDLE_NORMAL) \/
   (color <> COLOR_NEEDLE_COLD /\ color = COLOR_NEEDLE_HOT /\
    color <> COLOR_NEEDLE_NORMAL) \/
   (color <> COLOR_NEEDLE_COLD /\ color <> COLOR_NEEDLE_HOT /\
    color = COLOR_NEEDLE_NORMAL)) /\
  (exists px py,
     filter is_needle (gauge_items w h v) =
       [create_line (center_x w) (center_y h) px py color 5 (Some "round"%string)]) /\
  (exists x y text,
     filter is_readout (gauge_items w h v) =
       [create_text x y text FONT_DISPLAY color]).
Proof.
  cbv zeta. repeat split.
  - unfold needle_color. now intros ->.
  - intros H. unfold needle_color.
    now rewrite (gt_max_not_lt_min v H), H.
  - intros [Hlo Hhi]. unfold needle_color.
    pose proof (le_not_gt _ _ Hlo) as H1. unfold Py.gt in H1.
    now rewrite H1, (le_not_gt _ _ Hhi).
  - destruct (needle_color_cases v) as [E|[E|E]]; rewrite E;
      [left|right; left|right; right]; repeat split; discriminate.
  - eexists. eexists. reflexivity.
  - eexists. eexists. eexists. reflexivity.
Qed.

(** C5: an entry that parses to a number equal to [MIN_VALUE] or to
    [MAX_VALUE] is accepted: the number is stored and the canvas shows the
    gauge for it, not the error message. *)
Theorem update_value_accepts_bounds (app : App) (f : float) :
  float_of_str (entry app) = Some f ->
  Py.eq (Py.PyFloat f) MIN_VALUE = true \/ Py.eq (Py.PyFloat f) MAX_VALUE = true ->
  let app' := update_value app in
  app' = draw_gauge (set_value (Py.PyFloat f) app) /\
  value app' = Py.PyFloat f /\
  canvas app' = gauge_items (winfo_width app) (winfo_height app) (Py.PyFloat f) /\
  canvas app' <> error_items (winfo_width app) (winfo_height app).
Proof.
  intros Hp Hb. cbv zeta.
  destruct (boundary_passes_guard f Hb) as [Hlo Hhi].
  rewrite (update_value_accepts app f Hp Hlo Hhi).
  repeat split. apply gauge_is_not_error.
Qed.

(** C6: on a canvas of any width and height the gauge is centred at
    (width / 2, height * 0.65) with radius min(width, height) / 3, and
    every item is placed by that centre and that radius. *)
Theorem gauge_geometry (w h : Z) (v : Py.num) :
  let cx := (w / 2)%py in
  let cy := (h * GAUGE_VERTICAL_OFFSET)%py in
  let r := (Z.min w h / 3)%py in
  let at_angle (a d : Py.num) :=
    ((cx + d * Py.PyFloat (cos (Py.radians a)))%py,
     (cy + d * Py.PyFloat (sin (Py.radians a)))%py) in
  let tick (val : Z) :=
    let a := angle_of val in
    [ create_line (fst (at_angle a (r - TICK_LENGTH)%py))
        (snd (at_angle a (r - TICK_LENGTH)%py))
        (fst (at_angle a r)) (snd (at_angle a r)) COLOR_TICK 2 None;
      create_text
        (fst (at_angle a (r - TICK_LENGTH)%py)
         - LABEL_OFFSET * Py.PyFloat (cos (Py.radians a)))%py
        (snd (at_angle a (r - TICK_LENGTH)%py)
         - LABEL_OFFSET * Py.PyFloat (sin (Py.radians a)))%py
        (Py.str val) FONT_LABEL COLOR_TEXT ] in
  center_x w = cx /\ center_y h = cy /\ radius w h = r /\
  cx = Py.PyFloat (Py.int_truediv w 2) /\
  cy = Py.PyFloat (Py.int_to_float h * 0x1.4cccccccccccdp-1)%float /\
  r = Py.PyFloat (Py.int_truediv (Z.min w h) 3) /\
  gauge_items w h v =
    [ create_oval (cx - r + SHADOW_OFFSET)%py (cy - r + SHADOW_OFFSET)%py
        (cx + r + SHADOW_OFFSET)%py (cy + r + SHADOW_OFFSET)%py
        COLOR_SHADOW (Some SHADOW_THICKNESS) None;
      create_arc (cx - r)%py (cy - r)%py (cx + r)%py (cy + r)%py
        180 180 "arc" ARC_WIDTH COLOR_GAUGE_OUTLINE ]
    ++ flat_map tick [0; 20; 40; 60; 80; 100]
    ++ [ create_line cx cy
           (fst (at_angle (angle_of v) (r - NEEDLE_MARGIN)%py))
           (snd (at_angle (angle_of v) (r - NEEDLE_MARGIN)%py))
           (needle_color v) 5 (Some "round"%string);
         create_oval (cx - CENTER_CIRCLE_RADIUS)%py (cy - CENTER_CIRCLE_RADIUS)%py
           (cx + CENTER_CIRCLE_RADIUS)%py (cy + CENTER_CIRCLE_RADIUS)%py
           "" None (Some "#111"%string);
         create_text cx (cy + VALUE_TEXT_OFFSET)%py
           (Py.format_1f v ++ " °C") FONT_DISPLAY (needle_color v) ].
Proof.
  assert (Hmin : Py.min w h = Py.PyInt (Z.min w h)).
  { unfold Py.min. simpl. destruct (Z.ltb_spec h w).
    - now rewrite Z.min_r by lia.
    - now rewrite Z.min_l by lia. }
  assert (Hr : radius w h = (Z.min w h / 3)%py).
  { unfold radius. now rewrite Hmin. }
  cbv zeta. repeat split; trivial.
  rewrite <- Hr. reflexivity.
Qed.

(** C7: the gauge has a tick mark and a label for the values 0, 20, 40,
    60, 80 and 100 and for no other, each on the circle at the angle the
    needle has at that value. *)
Theorem ticks_every_interval (w h : Z) (v : Py.num) :
  let cx := center_x w in
  let cy := center_y h in
  let r := radius w h in
  let c (x : Py.num) := Py.PyFloat (cos (Py.radians (angle_of x))) in
  let s (x : Py.num) := Py.PyFloat (sin (Py.radians (angle_of x))) in
  let ticks := [0; 20; 40; 60; 80; 100] in
  Py.range MIN_VALUE (MAX_VALUE + 1) TICK_INTERVAL = ticks /\
  filter is_tick (gauge_items w h v) =
    map (fun val : Z =>
           create_line (cx + (r - TICK_LENGTH) * c val)%py
             (cy + (r - TICK_LENGTH) * s val)%py
             (cx + r * c val)%py (cy + r * s val)%py COLOR_TICK 2 None)
      ticks /\
  filter is_label (gauge_items w h v) =
    map (fun val : Z =>
           create_text
             (cx + (r - TICK_LENGTH) * c val - LABEL_OFFSET * c val)%py
             (cy + (r - TICK_LENGTH) * s val - LABEL_OFFSET * s val)%py
             (Py.str val) FONT_LABEL COLOR_TEXT)
      ticks /\
  map Py.str ticks = ["0"; "20"; "40"; "60"; "80"; "100"]%string /\
  map (fun val : Z => angle_of val) ticks =
    map Py.PyFloat [180; 216; 252; 288; 324; 360]%float /\
  (forall val, In val ticks ->
     angle_of val = angle_of (Py.PyFloat (Py.int_to_float val))) /\
  filter is_needle (gauge_items w h v) =
    [ create_line cx cy (cx + (r - NEEDLE_MARGIN) * c v)%py
        (cy + (r - NEEDLE_MARGIN) * s v)%py
        (needle_color v) 5 (Some "round"%string) ].
Proof.
  cbv zeta. rewrite gauge_items_unrolled. cbv zeta.
  repeat split.
  - simpl. now rewrite needle_is_no_tick.
  - simpl. now rewrite needle_is_no_label.
  - intros val Hin. simpl in Hin.
    repeat (destruct Hin as [<-|Hin]; [reflexivity|]). contradiction.
Qed.

(** C8: what [draw_gauge] puts on the canvas is determined by the width
    and height of the canvas and the value: two applications that agree
    on the three get the same items in the same order, and drawing a
    second time changes nothing. *)
Theorem draw_gauge_deterministic (a b : App) :
  winfo_width a = winfo_width b ->
  winfo_height a = winfo_height b ->
  value a = value b ->
  canvas (draw_gauge a) = canvas (draw_gauge b) /\
  canvas (draw_gauge a) = gauge_items (winfo_width a) (winfo_height a) (value a) /\
  draw_gauge (draw_gauge a) = draw_gauge a.
Proof.
  intros Hw Hh Hv. simpl. rewrite Hw, Hh, Hv. repeat split.
Qed.

(** C9: a resize leaves the value as it is and draws the gauge anew for
    the new size and that value: the needle keeps its angle and its
    colour, and centre and radius are those of the new size. *)
Theorem resize_redraws_same_value (app : App) (w h : Z) :
  let app' := handle app (Configure w h) in
  let v := value app in
  let rad := Py.radians (angle_of v) in
  let needle (cx cy r : Py.num) :=
    create_line cx cy
      (cx + (r - NEEDLE_MARGIN) * Py.PyFloat (cos rad))%py
      (cy + (r - NEEDLE_MARGIN) * Py.PyFloat (sin rad))%py
      (needle_color v) 5 (Some "round"%string) in
  value app' = v /\
  entry app' = entry app /\
  winfo_width app' = w /\ winfo_height app' = h /\
  app' = draw_gauge (set_size w h app) /\
  canvas app' = gauge_items w h v /\
  filter is_needle (canvas app') =
    [needle (center_x w) (center_y h) (radius w h)] /\
  filter is_needle (canvas (draw_gauge app)) =
    [needle (center_x (winfo_width app)) (center_y (winfo_height app))
       (radius (winfo_width app) (winfo_height app))].
Proof. cbv zeta. repeat split. Qed.

End GaugeFacts.


(** ** Runs with Python's [float] *)

Lemma accepts_bounds_example :
  let app := set_entry "100" (init sample_cos sample_sin 520 430) in
  let app' := update_value sample_cos sample_sin Py.float app in
  Py.float (entry app) = Some 100%float /\
  Py.eq (Py.PyFloat 100) MAX_VALUE = true /\
  value app' = Py.PyFloat 100 /\
  canvas app' = gauge_items sample_cos sample_sin 520 430 (Py.PyFloat 100).
Proof.
  cbv zeta.
  destruct (update_value_accepts_bounds sample_cos sample_sin Py.float
              (set_entry "100" (init sample_cos sample_sin 520 430)) 100%float)
    as (_ & Hv & Hc & _).
  - reflexivity.
  - right. reflexivity.
  - repeat split; assumption.
Defined.

Lemma deterministic_example :
  let a := init sample_cos sample_sin 520 430 in
  let b := mkApp 25 "abc" 520 430 [] in
  a <> b /\
  canvas (draw_gauge sample_cos sample_sin a) =
  canvas (draw_gauge sample_cos sample_sin b).
Proof.
  cbv zeta. split.
  - discriminate.
  - apply (draw_gauge_deterministic sample_cos sample_sin
             (init sample_cos sample_sin 520 430) (mkApp 25 "abc" 520 430 []));
      reflexivity.
Defined.

(** C3: the entry [nan] parses to a number that is not in the range, and
    [update_value] does not show the error message for it: it stores the
    NaN over the old value and draws the gauge. *)
Theorem update_value_stores_nan (cos sin : float -> float) (w h : Z) :
  let app := set_entry "nan" (init cos sin w h) in
  let app' := update_value cos sin Py.float app in
  Py.float (entry app) = Some PrimFloat.nan /\
  in_range (Py.PyFloat PrimFloat.nan) = false /\
  value app = Py.PyInt 25 /\
  value app' = Py.PyFloat PrimFloat.nan /\
  value app' <> value app /\
  canvas app' = gauge_items cos sin w h (Py.PyFloat PrimFloat.nan) /\
  canvas app' <> error_items w h.
Proof.
  cbv zeta. repeat split.
  - discriminate.
  - apply gauge_is_not_error.
Qed.

(** C4: the value is in the range at start-up, but not after every run of
    the program: typing [nan] and pressing the button leaves a NaN in it. *)
Theorem run_leaves_range (cos sin : float -> float) (w h : Z) :
  let app := init cos sin w h in
  let app' := run cos sin Py.float [Typed "nan"; Clicked] app in
  value app = Py.PyInt 25 /\
  in_range (value app) = true /\
  value app' = Py.PyFloat PrimFloat.nan /\
  in_range (value app') = false.
Proof. cbv zeta. repeat split. Qed.

(** X5: what does hold of the value after every run: it has passed the guard
    of [update_value], so it is in the range unless it is a NaN. *)
Lemma run_value_passes_guard
  (cos sin : float -> float) (float_of_str : string -> option float)
  (w h : Z) (es : list event) :
  let v := value (run cos sin float_of_str es (init cos sin w h)) in
  Py.lt v MIN_VALUE = false /\ Py.gt v MAX_VALUE = false /\
  (Py.eq v v = true -> in_range v = true).
Proof.
  cbv zeta.
  destruct (run_passes_guard cos sin float_of_str es (init cos sin w h))
    as [Hlo Hhi]; try reflexivity.
  repeat split; trivial.
  intros He. now apply guard_passed_in_range.
Qed.

(** C10: [update_value] stores the number and draws the gauge exactly when
    the entry parses and the number is neither below [MIN_VALUE] nor above
    [MAX_VALUE], and shows the error message over the old value otherwise;
    text with blanks around it, a sign or an exponent parses as Python's
    [float] reads it. *)
Theorem update_value_accepts_iff :
  (forall (cos sin : float -> float) (float_of_str : string -> option float)
          (app : App),
     let app' := update_value cos sin float_of_str app in
     let w := winfo_width app in
     let h := winfo_height app in
     let passes :=
       exists f, float_of_str (entry app) = Some f /\
                 Py.lt (Py.PyFloat f) MIN_VALUE = false /\
                 Py.gt (Py.PyFloat f) MAX_VALUE = false in
     ((exists f, float_of_str (entry app) = Some f /\
                 value app' = Py.PyFloat f /\
                 canvas app' = gauge_items cos sin w h (Py.PyFloat f))
      <-> passes) /\
     ((value app' = value app /\ canvas app' = error_items w h)
      <-> ~ passes)) /\
  (forall (cos sin : float -> float) (w h : Z) (text : string) (f : float),
     In (text, f) [(" 25 ", 25); ("+100", 100); ("2.5e1", 25)]%string%float ->
     let app := set_entry text (init cos sin w h) in
     let app' := update_value cos sin Py.float app in
     Py.float text = Some f /\
     value app' = Py.PyFloat f /\
     canvas app' = gauge_items cos sin w h (Py.PyFloat f)).
Proof.
  split.
  - intros cos sin float_of_str app. cbv zeta.
    destruct (update_value_cases cos sin float_of_str app)
      as [(f & Hp & Hlo & Hhi & E)|[Hrej E]]; rewrite E.
    + assert (Hok : exists f, float_of_str (entry app) = Some f /\
                              Py.lt (Py.PyFloat f) MIN_VALUE = false /\
                              Py.gt (Py.PyFloat f) MAX_VALUE = false)
        by (exists f; now repeat split).
      split; split.
      * intros _. exact Hok.
      * intros _. exists f. now repeat split.
      * intros [_ Hc]. exfalso. simpl in Hc.
        exact (gauge_is_not_error cos sin _ _ _ _ _ Hc).
      * intros Hn. now destruct Hn.
    + assert (Hno : ~ exists f, float_of_str (entry app) = Some f /\
                                Py.lt (Py.PyFloat f) MIN_VALUE = false /\
                                Py.gt (Py.PyFloat f) MAX_VALUE = false).
      { intros (f & Hp & Hlo & Hhi).
        destruct Hrej as [Hnone|(g & Hg & Hr)]; [congruence|].
        assert (g = f) by congruence. subst g.
        destruct Hr; congruence. }
      split; split.
      * intros (f & _ & _ & Hc). exfalso. simpl in Hc. symmetry in Hc.
        exact (gauge_is_not_error cos sin _ _ _ _ _ Hc).
      * intros Hok. now destruct Hno.
      * intros _. exact Hno.
      * intros _. now split.
  - intros cos sin w h text f Hin. cbv zeta. simpl in Hin.
    repeat (destruct Hin as [E|Hin];
            [injection E as <- <-; repeat split|]).
    contradiction.
Qed.


(** ** Further properties of the event handlers *)

Section Handlers.

Variables cos sin : float -> float.
Variable float_of_str : string -> option float.

(** What the canvas shows is the gauge for the value and the size the
    application has, or the error message for that size. *)
Lemma handle_shows_gauge_or_error (app : App) (e : event) :
  canvas app = gauge_items cos sin (winfo_width app) (winfo_height app) (value app) \/
  canvas app = error_items (winfo_width app) (winfo_height app) ->
  let app' := handle cos sin float_of_str app e in
  canvas app' = gauge_items cos sin (winfo_width app') (winfo_height app') (value app') \/
  canvas app' = error_items (winfo_width app') (winfo_height app').
Proof.
  intros H. cbv zeta. destruct e as [w h|text| ].
  - left. reflexivity.
  - exact H.
  - simpl.
    destruct (update_value_cases cos sin float_of_str app)
      as [(f & _ & _ & _ & E)|[_ E]]; rewrite E.
    + left. reflexivity.
    + right. reflexivity.
Qed.

Lemma run_shows_gauge_or_error (es : list event) :
  forall app : App,
    canvas app = gauge_items cos sin (winfo_width app) (winfo_height app) (value app) \/
    canvas app = error_items (winfo_width app) (winfo_height app) ->
    let app' := run cos sin float_of_str es app in
    canvas app' = gauge_items cos sin (winfo_width app') (winfo_height app') (value app') \/
    canvas app' = error_items (winfo_width app') (winfo_height app').
Proof.
  induction es as [|e es IH]; intros app H.
  - exact H.
  - simpl. apply IH. now apply handle_shows_gauge_or_error.
Qed.

(** X7: after start-up and any events, the canvas holds the seventeen items of
    the gauge for the current value and canvas size, or the one item of
    the error message for the current size: never items of an older value
    or size, never both, never nothing. *)
Theorem canvas_is_gauge_or_error (w h : Z) (es : list event) :
  let app := run cos sin float_of_str es (init cos sin w h) in
  (canvas app = gauge_items cos sin (winfo_width app) (winfo_height app) (value app) /\
   List.length (canvas app) = 17%nat) \/
  (canvas app = error_items (winfo_width app) (winfo_height app) /\
   List.length (canvas app) = 1%nat).
Proof.
  cbv zeta.
  destruct (run_shows_gauge_or_error es (init cos sin w h)) as [E|E].
  - left. reflexivity.
  - left. split; [exact E|]. rewrite E. apply gauge_items_length.
  - right. split; [exact E|]. now rewrite E.
Qed.

(** X8: the error message does not outlast a resize: when the entry is
    refused, the value is the old one, and the next resize draws the gauge
    for it again. *)
Theorem resize_after_error_restores_gauge (app : App) (w h : Z) :
  (float_of_str (entry app) = None \/
   exists f, float_of_str (entry app) = Some f /\
             (Py.lt (Py.PyFloat f) MIN_VALUE = true \/
              Py.gt (Py.PyFloat f) MAX_VALUE = true)) ->
  let shown := update_value cos sin float_of_str app in
  let app' := handle cos sin float_of_str shown (Configure w h) in
  canvas shown = error_items (winfo_width app) (winfo_height app) /\
  value app' = value app /\
  canvas app' = gauge_items cos sin w h (value app).
Proof.
  intros H. cbv zeta.
  assert (E : update_value cos sin float_of_str app = update_except app).
  { destruct H as [H|(f & Hp & Hr)].
    - now apply update_value_no_parse.
    - now apply (update_value_out_of_range cos sin float_of_str app f). }
  rewrite E. repeat split.
Qed.

(** X9: pressing the button a second time without editing the entry changes
    nothing. *)
Theorem update_value_idempotent (app : App) :
  update_value cos sin float_of_str (update_value cos sin float_of_str app) =
  update_value cos sin float_of_str app.
Proof.
  destruct (update_value_cases cos sin float_of_str app)
    as [(f & Hp & Hlo & Hhi & E)|[Hrej E]]; rewrite E.
  - rewrite (update_value_accepts cos sin float_of_str _ f); trivial.
  - destruct Hrej as [Hn|(f & Hp & Hr)].
    + rewrite update_value_no_parse; trivial.
    + rewrite (update_value_out_of_range cos sin float_of_str _ f); trivial.
Qed.

(** X6: the guard of [update_value] lets through the numbers of the range and
    the NaNs (the numbers not equal to themselves), and no other: the
    entry is stored exactly when it parses to one of these. *)
Theorem update_value_stores_range_or_nan (app : App) (f : float) :
  float_of_str (entry app) = Some f ->
  let app' := update_value cos sin float_of_str app in
  let stores :=
    value app' = Py.PyFloat f /\
    canvas app' =
      gauge_items cos sin (winfo_width app) (winfo_height app) (Py.PyFloat f) in
  ((in_range (Py.PyFloat f) = true \/ Py.eq (Py.PyFloat f) (Py.PyFloat f) = false)
   -> stores) /\
  (in_range (Py.PyFloat f) = false /\ Py.eq (Py.PyFloat f) (Py.PyFloat f) = true
   -> value app' = value app /\
      canvas app' = error_items (winfo_width app) (winfo_height app)).
Proof.
  intros Hp. cbv zeta. split.
  - intros H.
    assert (G : Py.lt (Py.PyFloat f) MIN_VALUE = false /\
                Py.gt (Py.PyFloat f) MAX_VALUE = false).
    { destruct H as [H|H].
      - now apply in_range_passes_guard.
      - unfold Py.gt. simpl in *.
        rewrite FloatAxioms.eqb_spec in H. rewrite !FloatAxioms.ltb_spec.
        unfold SFeqb, SFltb in *.
        destruct (Prim2SF f) as [s|s| |s m e]; simpl in *;
          try discriminate; try (destruct s; discriminate); try now split.
        destruct s; rewrite Z.compare_refl, Pos.compare_cont_refl in H;
          discriminate. }
    destruct G as [Hlo Hhi].
    rewrite (update_value_accepts cos sin float_of_str app f Hp Hlo Hhi).
    now split.
  - intros [Hr He].
    destruct (Py.lt (Py.PyFloat f) MIN_VALUE) eqn:Hlo.
    + rewrite (update_value_out_of_range cos sin float_of_str app f Hp);
        [now split|now left].
    + destruct (Py.gt (Py.PyFloat f) MAX_VALUE) eqn:Hhi.
      * rewrite (update_value_out_of_range cos sin float_of_str app f Hp);
          [now split|now right].
      * rewrite (guard_passed_in_range _ He Hlo Hhi) in Hr. discriminate Hr.
Qed.

End Handlers.

(** ** Rounding of the float operations *)

Lemma bpow_gt_0 (e : Z) : (0 < bpow e)%R.
Proof. apply powerRZ_lt. lra. Qed.

Lemma bpow_add (a b : Z) : bpow (a + b) = (bpow a * bpow b)%R.
Proof. apply powerRZ_add. lra. Qed.

Lemma bpow_0 : bpow 0 = 1%R.
Proof. reflexivity. Qed.

Lemma bpow_1 : bpow 1 = 2%R.
Proof. unfold bpow. simpl. lra. Qed.

Lemma bpow_opp_r (a : Z) : (bpow a * bpow (- a))%R = 1%R.
Proof. rewrite <- bpow_add, Z.add_opp_diag_r. apply bpow_0. Qed.

Lemma bpow_succ (a : Z) : bpow (a + 1) = (2 * bpow a)%R.
Proof. rewrite bpow_add, bpow_1. lra. Qed.

Lemma bpow_ge_1 (a : Z) : 0 <= a -> (1 <= bpow a)%R.
Proof.
  intros Ha. pattern a. apply natlike_ind; trivial.
  - rewrite bpow_0. lra.
  - intros x _ IH. unfold Z.succ. rewrite bpow_succ. lra.
Qed.

Lemma bpow_le (a b : Z) : a <= b -> (bpow a <= bpow b)%R.
Proof.
  intros H. replace b with (a + (b - a)) by lia. rewrite bpow_add.
  pose proof (bpow_gt_0 a).
  assert (1 <= bpow (b - a))%R by (apply bpow_ge_1; lia). nra.
Qed.

Lemma bpow_lt (a b : Z) : a < b -> (bpow a < bpow b)%R.
Proof.
  intros H. apply Rlt_le_trans with (bpow (a + 1)).
  - rewrite bpow_succ. pose proof (bpow_gt_0 a). lra.
  - apply bpow_le. lia.
Qed.

Lemma bpow_lt_inv (a b : Z) : (bpow a < bpow b)%R -> a < b.
Proof.
  intros H. destruct (Z_lt_le_dec a b) as [|Hle]; trivial.
  apply bpow_le in Hle. lra.
Qed.

Lemma bpow_IZR (a : Z) : 0 <= a -> bpow a = IZR (2 ^ a).
Proof.
  intros Ha. pattern a. apply natlike_ind; trivial.
  intros x Hx IH. unfold Z.succ. rewrite bpow_succ, IH, Z.pow_add_r by lia.
  rewrite mult_IZR. change (2 ^ 1) with 2. lra.
Qed.

Lemma digits2_size (m : positive) : digits2_pos m = Pos.size m.
Proof. induction m; simpl; congruence. Qed.

Lemma digits2_bounds (m : positive) :
  2 ^ (Zpos (digits2_pos m) - 1) <= Zpos m < 2 ^ Zpos (digits2_pos m).
Proof.
  rewrite digits2_size.
  pose proof (Pos.size_gt m) as Hgt. pose proof (Pos.size_le m) as Hle.
  assert (E : Zpos (2 ^ Pos.size m) = 2 ^ Zpos (Pos.size m))
    by apply Pos2Z.inj_pow.
  split.
  - assert (2 * 2 ^ (Zpos (Pos.size m) - 1) = 2 ^ Zpos (Pos.size m)).
    { rewrite <- Z.pow_succ_r by lia. f_equal. lia. }
    lia.
  - lia.
Qed.

Lemma digits2_bounds_R (m : positive) :
  (bpow (Zpos (digits2_pos m) - 1) <= IZR (Zpos m) < bpow (Zpos (digits2_pos m)))%R.
Proof.
  destruct (digits2_bounds m) as [Hlo Hhi].
  rewrite !bpow_IZR by lia. split; [apply IZR_le|apply IZR_lt]; assumption.
Qed.

(** Rounding to the nearest integer, ties to even *)

Lemma rne_of_located (x : R) (m : Z) (l : location) :
  located x m l -> rne x (round_nearest_even m l).
Proof.
  unfold rne. destruct l as [|[ | | ]]; simpl; intros H.
  - subst x. split; [lra|]. intros [E|E]; lra.
  - destruct (Z.even m) eqn:Ev.
    + split; [lra|trivial].
    + rewrite plus_IZR. split; [lra|]. intros _.
      rewrite Z.even_add, Ev. reflexivity.
  - split; [lra|]. intros [E|E]; lra.
  - rewrite plus_IZR. split; [lra|]. intros [E|E]; lra.
Qed.

Lemma rne_mono (x y : R) (n k : Z) :
  (x <= y)%R -> rne x n -> rne y k -> n <= k.
Proof.
  intros Hxy [Hn En] [Hk Ek].
  destruct (Z_le_gt_dec n k) as [|Hgt]; trivial. exfalso.
  assert (H1 : (IZR k + 1 <= IZR n)%R).
  { rewrite <- plus_IZR. apply IZR_le. lia. }
  assert (Ex : x = (IZR n - / 2)%R) by lra.
  assert (Ey : y = (IZR k + / 2)%R) by lra.
  assert (E : IZR n = IZR (k + 1)) by (rewrite plus_IZR; lra).
  apply eq_IZR in E.
  specialize (En (or_introl Ex)). specialize (Ek (or_intror Ey)).
  subst n. rewrite Z.even_add, Ek in En. discriminate En.
Qed.

Lemma rne_le_int (x : R) (n b : Z) :
  rne x n -> (x <= IZR b)%R -> n <= b.
Proof.
  intros [Hn _] Hb.
  assert (IZR n < IZR (b + 1))%R by (rewrite plus_IZR; lra).
  apply lt_IZR in H. lia.
Qed.

Lemma rne_ge_int (x : R) (n b : Z) :
  rne x n -> (IZR b <= x)%R -> b <= n.
Proof.
  intros [Hn _] Hb.
  assert (IZR b < IZR (n + 1))%R by (rewrite plus_IZR; lra).
  apply lt_IZR in H. lia.
Qed.

Lemma rne_exact (n : Z) : rne (IZR n) n.
Proof. split; [lra|]. intros [E|E]; lra. Qed.

(** Shifting a located number right *)

Lemma loc_of_shr_record_of_loc (m : Z) (l : location) :
  loc_of_shr_record (shr_record_of_loc m l) = l /\
  shr_m (shr_record_of_loc m l) = m.
Proof. now destruct l as [|[ | | ]]. Qed.

Lemma shr_1_located (x : R) (r : shr_record) :
  located_rec x r -> located_rec (x * / 2) (shr_1 r).
Proof.
  destruct r as [m rb sb]. intros [Hm H].
  destruct m as [|p|p]; [| |exfalso; simpl in Hm; lia].
  - destruct rb, sb;
      cbv [located_rec located loc_of_shr_record shr_1 shr_m orb] in *;
      split; try lia; lra.
  - assert (E1 : forall q, IZR (Zpos q~1) = (2 * IZR (Zpos q) + 1)%R).
    { intros q. now rewrite Pos2Z.inj_xI, plus_IZR, mult_IZR. }
    assert (E0 : forall q, IZR (Zpos q~0) = (2 * IZR (Zpos q))%R).
    { intros q. now rewrite Pos2Z.inj_xO, mult_IZR. }
    destruct p as [p|p| ]; [specialize (E1 p)|specialize (E0 p)|];
      destruct rb, sb;
      cbv [located_rec located loc_of_shr_record shr_1 shr_m orb] in *;
      split; try lia; lra.
Qed.

Lemma bpow_opp_1 : bpow (Z.opp 1) = (/ 2)%R.
Proof. unfold bpow. simpl. lra. Qed.

Lemma iter_pos_located (p : positive) :
  forall (x : R) (r : shr_record),
    located_rec x r ->
    located_rec (x * bpow (- Zpos p)) (SpecFloat.iter_pos shr_1 p r).
Proof.
  induction p as [p IH|p IH| ]; intros x r H.
  - simpl SpecFloat.iter_pos.
    replace (- Zpos p~1) with (Z.opp 1 + (- Zpos p + - Zpos p)) by lia.
    rewrite !bpow_add, <- !Rmult_assoc.
    apply IH, IH. rewrite bpow_opp_1.
    now apply shr_1_located.
  - simpl SpecFloat.iter_pos.
    replace (- Zpos p~0) with (- Zpos p + - Zpos p) by lia.
    rewrite !bpow_add, <- !Rmult_assoc.
    now apply IH, IH.
  - simpl SpecFloat.iter_pos. rewrite bpow_opp_1.
    now apply shr_1_located.
Qed.

Lemma shr_located (x : R) (m : Z) (l : location) (e s : Z) :
  0 <= m -> 0 <= s -> located x m l ->
  let (r, e') := shr (shr_record_of_loc m l) e s in
  e' = e + s /\ located_rec (x * bpow (- s)) r.
Proof.
  intros Hm Hs H.
  assert (H0 : located_rec x (shr_record_of_loc m l)).
  { unfold located_rec.
    destruct (loc_of_shr_record_of_loc m l) as [-> ->]. now split. }
  destruct s as [|p|p]; simpl; [| |lia].
  - split; [lia|]. change (bpow (- 0)) with 1%R. rewrite Rmult_1_r. exact H0.
  - split; [reflexivity|]. now apply iter_pos_located.
Qed.

(** The rounding of the IEEE operations *)

Lemma fexp_eq (k : Z) : fexp prec emax k = Z.max (k - 53) (-1074).
Proof. reflexivity. Qed.

Lemma shr_nonpos (r : shr_record) (e z : Z) : z <= 0 -> shr r e z = (r, e).
Proof. destruct z as [|p|p]; trivial. lia. Qed.

Lemma located_bounds (x : R) (m : Z) (l : location) :
  located x m l -> (IZR m <= x < IZR m + 1)%R.
Proof. destruct l as [|[ | | ]]; simpl; lra. Qed.

Lemma bpow_shift (x : R) (a b : Z) :
  (x * bpow (- a) * bpow (- (b - a)))%R = (x * bpow (- b))%R.
Proof.
  rewrite Rmult_assoc, <- bpow_add. f_equal. f_equal. lia.
Qed.

Lemma scaled_bounds (x : R) (e lo hi : Z) :
  (bpow lo <= x * bpow (- e) < bpow hi)%R ->
  (bpow (lo + e) <= x < bpow (hi + e))%R.
Proof.
  intros H. rewrite !bpow_add.
  pose proof (bpow_gt_0 e) as He. pose proof (bpow_opp_r e) as Hi.
  assert (E : x = (x * bpow (- e) * bpow e)%R).
  { rewrite Rmult_assoc, (Rmult_comm (bpow (- e))), Hi. lra. }
  set (y := (x * bpow (- e))%R) in *. rewrite E. split.
  - apply Rmult_le_compat_r; lra.
  - apply Rmult_lt_compat_r; lra.
Qed.

Lemma located_mag (x : R) (p : positive) (e : Z) (l : location) :
  located (x * bpow (- e)) (Zpos p) l ->
  (bpow (Zpos (digits2_pos p) + e - 1) <= x < bpow (Zpos (digits2_pos p) + e))%R.
Proof.
  intros H. apply located_bounds in H.
  destruct (digits2_bounds p) as [Hlo Hhi].
  replace (Zpos (digits2_pos p) + e - 1) with (Zpos (digits2_pos p) - 1 + e) by lia.
  apply scaled_bounds.
  rewrite (bpow_IZR (Zpos (digits2_pos p) - 1)),
    (bpow_IZR (Zpos (digits2_pos p))) by lia.
  split.
  - apply Rle_trans with (IZR (Zpos p)); [now apply IZR_le|lra].
  - apply Rlt_le_trans with (IZR (Zpos p) + 1)%R; [lra|].
    rewrite <- plus_IZR. apply IZR_le. lia.
Qed.

Lemma round_nearest_even_ge (m : Z) (l : location) :
  m <= round_nearest_even m l.
Proof.
  destruct l as [|[ | | ]]; simpl; try lia. destruct (Z.even m); lia.
Qed.

Lemma digits2_le (q : positive) (b : Z) :
  0 <= b -> Zpos q < 2 ^ b -> Zpos (digits2_pos q) <= b.
Proof.
  intros Hb H. destruct (digits2_bounds q) as [Hlo _].
  assert (2 ^ (Zpos (digits2_pos q) - 1) < 2 ^ b) by lia.
  apply Z.pow_lt_mono_r_iff in H0; lia.
Qed.

Lemma binary_round_aux_rounds (x : R) (p : positive) (e : Z) (l : location) :
  located (x * bpow (- e)) (Zpos p) l ->
  e <= fexp prec emax (Zpos (digits2_pos p) + e) ->
  Zpos (digits2_pos p) + e <= 1000 ->
  exists n : Z,
    rne (x * bpow (- fexp prec emax (Zpos (digits2_pos p) + e))) n /\
    SF2R (binary_round_aux prec emax false (Zpos p) e l) =
      (IZR n * bpow (fexp prec emax (Zpos (digits2_pos p) + e)))%R /\
    match binary_round_aux prec emax false (Zpos p) e l with
    | S754_zero false => n = 0
    | S754_finite false _ _ => 0 < n
    | _ => False
    end.
Proof.
  intros H He Hk.
  pose proof (located_mag x p e l H) as [_ Hx].
  set (k := Zpos (digits2_pos p) + e) in *.
  set (c := fexp prec emax k) in *.
  assert (Hc : c = Z.max (k - 53) (-1074)) by apply fexp_eq.
  unfold binary_round_aux, shr_fexp.
  change (Zdigits2 (Zpos p)) with (Zpos (digits2_pos p)). fold k. fold c.
  change (emax - prec) with 971.
  pose proof (shr_located (x * bpow (- e)) (Zpos p) l e (c - e)) as S.
  destruct (shr (shr_record_of_loc (Zpos p) l) e (c - e)) as [r e'].
  destruct S as [Ee' [Hm' Hloc]]; trivial; try lia.
  rewrite bpow_shift in Hloc.
  assert (Ec : e' = c) by lia. clear Ee'. subst e'.
  set (n := round_nearest_even (shr_m r) (loc_of_shr_record r)).
  assert (Hrne : rne (x * bpow (- c)) n) by now apply rne_of_located.
  assert (Hn0 : 0 <= n).
  { pose proof (round_nearest_even_ge (shr_m r) (loc_of_shr_record r)) as G.
    fold n in G. lia. }
  assert (Hn1 : n <= 2 ^ 53).
  { apply (rne_le_int _ _ _ Hrne).
    rewrite <- bpow_IZR by lia.
    apply Rle_trans with (bpow (k - c)); [|apply bpow_le; lia].
    replace (k - c) with (k + - c) by lia. rewrite bpow_add.
    pose proof (bpow_gt_0 (- c)). apply Rmult_le_compat_r; lra. }
  exists n. split; [exact Hrne|].
  destruct (Z.eq_dec n (2 ^ 53)) as [E|NE].
  - rewrite E.
    change (Zdigits2 (2 ^ 53)) with 54.
    replace (fexp prec emax (54 + c) - c) with 1
      by (rewrite fexp_eq; lia).
    change (2 ^ 53) with 9007199254740992.
    cbv [shr SpecFloat.iter_pos shr_1 shr_record_of_loc shr_m orb].
    replace (c + 1 <=? 971) with true by (symmetry; apply Z.leb_le; lia).
    split; [|reflexivity].
    cbv [SF2R]. rewrite bpow_succ. lra.
  - destruct n as [|q|q] eqn:En; [| |lia].
    + change (Zdigits2 0) with 0.
      rewrite shr_nonpos by (rewrite fexp_eq; lia).
      cbv [shr_record_of_loc shr_m SF2R]. split; [lra|reflexivity].
    + assert (Hd : Zpos (digits2_pos q) <= 53) by (apply digits2_le; lia).
      change (Zdigits2 (Zpos q)) with (Zpos (digits2_pos q)).
      rewrite shr_nonpos by (rewrite fexp_eq; lia).
      cbv [shr_record_of_loc shr_m].
      replace (c <=? 971) with true by (symmetry; apply Z.leb_le; lia).
      split; [reflexivity|lia].
Qed.

Lemma bpow_scale_le (a b : R) (z : Z) :
  (a <= b)%R -> (a * bpow z <= b * bpow z)%R.
Proof.
  intros H. pose proof (bpow_gt_0 z). apply Rmult_le_compat_r; lra.
Qed.

Lemma bpow_sub (a b : Z) : (bpow a * bpow (- b))%R = bpow (a - b).
Proof. rewrite <- bpow_add. f_equal. Qed.

Lemma binary_round_aux_rounds_to (x : R) (p : positive) (e : Z) (l : location) :
  located (x * bpow (- e)) (Zpos p) l ->
  e <= fexp prec emax (Zpos (digits2_pos p) + e) ->
  Zpos (digits2_pos p) + e <= 1000 ->
  rounds_to x (SF2R (binary_round_aux prec emax false (Zpos p) e l)) /\
  ((bpow (-1074) <= x)%R ->
   exists m' e', binary_round_aux prec emax false (Zpos p) e l = S754_finite false m' e').
Proof.
  intros H He Hk.
  destruct (binary_round_aux_rounds x p e l H He Hk) as (n & Hrne & Hv & Hm).
  pose proof (located_mag x p e l H) as Hx.
  set (k := Zpos (digits2_pos p) + e) in *.
  split.
  - exists k, n. split; [exact Hx|split; [exact Hrne|exact Hv]].
  - intros Hmin.
    assert (Hn : 1 <= n).
    { apply (rne_ge_int _ _ _ Hrne).
      rewrite <- (bpow_opp_r (fexp prec emax k)).
      apply bpow_scale_le.
      rewrite fexp_eq. destruct (Z.max_spec (k - 53) (-1074)) as [[_ ->]|[_ ->]].
      + exact Hmin.
      + apply Rle_trans with (bpow (k - 1)); [apply bpow_le; lia|apply Hx]. }
    destruct (binary_round_aux prec emax false (Zpos p) e l) as [[|]|s| |[|] m' e'];
      try contradiction; try lia.
    now exists m', e'.
Qed.

Lemma rounds_to_mono (x y rx ry : R) :
  (x <= y)%R -> rounds_to x rx -> rounds_to y ry -> (rx <= ry)%R.
Proof.
  intros Hxy (kx & nx & Bx & Rx & ->) (ky & ny & By & Ry & ->).
  assert (Hk : kx <= ky).
  { assert (bpow (kx - 1) < bpow ky)%R by lra.
    apply bpow_lt_inv in H. lia. }
  rewrite !fexp_eq in *.
  set (cx := Z.max (kx - 53) (-1074)) in *.
  set (cy := Z.max (ky - 53) (-1074)) in *.
  destruct (Z.eq_dec cx cy) as [E|NE].
  - rewrite <- E in *. apply bpow_scale_le, IZR_le.
    apply (rne_mono _ _ _ _ (bpow_scale_le _ _ (- cx) Hxy) Rx Ry).
  - assert (Hlt : kx < ky) by lia.
    assert (Hcy : cy = ky - 53) by lia.
    apply Rle_trans with (bpow (ky - 1)).
    + assert (Hnx : nx <= 2 ^ (ky - 1 - cx)).
      { apply (rne_le_int _ _ _ Rx).
        rewrite <- bpow_IZR by lia. rewrite <- bpow_sub.
        apply bpow_scale_le.
        apply Rle_trans with (bpow kx); [lra|apply bpow_le; lia]. }
      apply IZR_le in Hnx. rewrite <- bpow_IZR in Hnx by lia.
      apply (bpow_scale_le _ _ cx) in Hnx.
      replace (bpow (ky - 1 - cx) * bpow cx)%R with (bpow (ky - 1)) in Hnx; trivial.
      rewrite <- bpow_add. f_equal. lia.
    + assert (Hny : 2 ^ (ky - 1 - cy) <= ny).
      { apply (rne_ge_int _ _ _ Ry).
        rewrite <- bpow_IZR by lia. rewrite <- bpow_sub.
        apply bpow_scale_le. lra. }
      apply IZR_le in Hny. rewrite <- bpow_IZR in Hny by lia.
      apply (bpow_scale_le _ _ cy) in Hny.
      replace (bpow (ky - 1 - cy) * bpow cy)%R with (bpow (ky - 1)) in Hny; trivial.
      rewrite <- bpow_add. f_equal. lia.
Qed.

(** The order of valid positive numbers is the order of their values *)

Lemma bounded_spec (m : positive) (e : Z) :
  bounded prec emax m e = true ->
  Z.max (Zpos (digits2_pos m) + e - 53) (-1074) = e /\ e <= 971.
Proof.
  unfold bounded, canonical_mantissa. rewrite andb_true_iff, fexp_eq.
  intros [H1 H2]. apply Z.eqb_eq in H1. apply Z.leb_le in H2.
  change (emax - prec) with 971 in H2. now split.
Qed.

Lemma SF2R_pos (m : positive) (e : Z) :
  SF2R (S754_finite false m e) = (IZR (Zpos m) * bpow e)%R.
Proof. reflexivity. Qed.

Lemma finite_value_bounds (m : positive) (e : Z) :
  (bpow (Zpos (digits2_pos m) + e - 1) <= SF2R (S754_finite false m e)
   < bpow (Zpos (digits2_pos m) + e))%R.
Proof.
  rewrite SF2R_pos. apply (located_mag _ m e loc_Exact). simpl.
  rewrite Rmult_assoc, bpow_opp_r. lra.
Qed.

Lemma SFltb_value (m1 m2 : positive) (e1 e2 : Z) :
  bounded prec emax m1 e1 = true ->
  bounded prec emax m2 e2 = true ->
  SFltb (S754_finite false m1 e1) (S754_finite false m2 e2) = true ->
  (SF2R (S754_finite false m1 e1) < SF2R (S754_finite false m2 e2))%R.
Proof.
  intros B1 B2. apply bounded_spec in B1, B2.
  unfold SFltb, SFcompare.
  destruct (Z.compare_spec e1 e2) as [E|L|G]; try discriminate.
  - subst e2.
    change (PosDef.Pos.compare_cont Eq m1 m2) with (Pos.compare m1 m2).
    destruct (Pos.compare_spec m1 m2); try discriminate. intros _.
    rewrite !SF2R_pos. pose proof (bpow_gt_0 e1).
    apply Rmult_lt_compat_r; trivial. apply IZR_lt. lia.
  - intros _.
    pose proof (finite_value_bounds m1 e1) as [_ H1].
    pose proof (finite_value_bounds m2 e2) as [H2 _].
    apply Rlt_le_trans with (1 := H1). apply Rle_trans with (2 := H2).
    apply bpow_le. lia.
Qed.

Lemma SFleb_value (m1 m2 : positive) (e1 e2 : Z) :
  bounded prec emax m1 e1 = true ->
  bounded prec emax m2 e2 = true ->
  SFleb (S754_finite false m1 e1) (S754_finite false m2 e2) = true ->
  (SF2R (S754_finite false m1 e1) <= SF2R (S754_finite false m2 e2))%R.
Proof.
  intros B1 B2 H.
  destruct (SFltb (S754_finite false m1 e1) (S754_finite false m2 e2)) eqn:L.
  - apply Rlt_le. now apply SFltb_value.
  - assert (E : SFeqb (S754_finite false m1 e1) (S754_finite false m2 e2) = true).
    { unfold SFleb, SFltb, SFeqb in *.
      destruct (SFcompare (S754_finite false m1 e1) (S754_finite false m2 e2))
        as [[ | | ]|]; congruence. }
    apply SFeqb_true in E. destruct E as [E|(s & t & E & _)]; [|discriminate E].
    rewrite E. lra.
Qed.

Lemma value_SFleb (m1 m2 : positive) (e1 e2 : Z) :
  bounded prec emax m1 e1 = true ->
  bounded prec emax m2 e2 = true ->
  (SF2R (S754_finite false m1 e1) <= SF2R (S754_finite false m2 e2))%R ->
  SFleb (S754_finite false m1 e1) (S754_finite false m2 e2) = true.
Proof.
  intros B1 B2 H.
  destruct (SFltb (S754_finite false m2 e2) (S754_finite false m1 e1)) eqn:L.
  - apply SFltb_value in L; trivial. lra.
  - apply SFltb_false_leb; trivial; unfold SFeqb; simpl;
      now rewrite Z.compare_refl, Pos.compare_cont_refl.
Qed.

(** Alignment and [binary_round] *)

Lemma iter_xO_value (m d : positive) :
  Zpos (Pos.iter xO m d) = Zpos m * 2 ^ Zpos d.
Proof.
  induction d as [|d IH] using Pos.peano_ind.
  - simpl. lia.
  - rewrite Pos.iter_succ, Pos2Z.inj_xO, IH, Pos2Z.inj_succ, Z.pow_succ_r by lia.
    lia.
Qed.

Lemma shl_align_spec (m : positive) (e e' : Z) :
  let (m', e'') := shl_align m e e' in
  e'' = Z.min e e' /\
  (IZR (Zpos m') * bpow e'')%R = (IZR (Zpos m) * bpow e)%R.
Proof.
  unfold shl_align. destruct (e' - e) as [|d|d] eqn:E.
  - split; [lia|reflexivity].
  - split; [lia|reflexivity].
  - split; [lia|].
    rewrite iter_xO_value, mult_IZR, <- bpow_IZR by lia.
    rewrite Rmult_assoc, <- bpow_add. f_equal. f_equal. lia.
Qed.

Lemma mag_unique (x : R) (a b : Z) :
  (bpow (a - 1) <= x < bpow a)%R -> (bpow (b - 1) <= x < bpow b)%R -> a = b.
Proof.
  intros [A1 A2] [B1 B2].
  assert (bpow (a - 1) < bpow b)%R by lra.
  assert (bpow (b - 1) < bpow a)%R by lra.
  apply bpow_lt_inv in H, H0. lia.
Qed.

Lemma binary_round_rounds_to (m : positive) (e : Z) :
  let x := (IZR (Zpos m) * bpow e)%R in
  (x < bpow 1000)%R ->
  rounds_to x (SF2R (binary_round prec emax false m e)) /\
  ((bpow (-1074) <= x)%R ->
   exists m' e', binary_round prec emax false m e = S754_finite false m' e').
Proof.
  intros x Hx. unfold binary_round.
  pose proof (shl_align_spec m e (fexp prec emax (Zpos (digits2_pos m) + e))) as S.
  destruct (shl_align m e (fexp prec emax (Zpos (digits2_pos m) + e))) as [mz ez].
  destruct S as [Ez Ev]. fold x in Ev.
  assert (Hloc : located (x * bpow (- ez)) (Zpos mz) loc_Exact).
  { simpl. rewrite <- Ev, Rmult_assoc, bpow_opp_r. lra. }
  assert (Hk : Zpos (digits2_pos mz) + ez = Zpos (digits2_pos m) + e).
  { apply (mag_unique x).
    - replace (Zpos (digits2_pos mz) + ez - 1) with (Zpos (digits2_pos mz) - 1 + ez) by lia.
      rewrite <- Ev. pose proof (finite_value_bounds mz ez) as B.
      rewrite SF2R_pos in B.
      now replace (Zpos (digits2_pos mz) + ez - 1) with (Zpos (digits2_pos mz) - 1 + ez) in B by lia.
    - pose proof (finite_value_bounds m e) as B. now rewrite SF2R_pos in B. }
  apply binary_round_aux_rounds_to; trivial.
  - rewrite Hk. lia.
  - rewrite Hk. pose proof (finite_value_bounds m e) as [B _].
    rewrite SF2R_pos in B. fold x in B.
    assert (bpow (Zpos (digits2_pos m) + e - 1) < bpow 1000)%R by lra.
    apply bpow_lt_inv in H. lia.
Qed.

(** The three operations of the angle *)

Lemma bpow_pos_value (a : positive) : bpow (Zpos a) = IZR (2 ^ Zpos a).
Proof. apply bpow_IZR. lia. Qed.

Lemma bpow_neg_value (a : positive) : (bpow (Zneg a) * IZR (2 ^ Zpos a))%R = 1%R.
Proof.
  rewrite <- bpow_pos_value, <- bpow_add.
  replace (Zneg a + Zpos a) with 0 by lia. apply bpow_0.
Qed.

Lemma SF2R_c180 : SF2R c180 = 180%R.
Proof.
  unfold c180. rewrite SF2R_pos. pose proof (bpow_neg_value 45) as H.
  change (2 ^ 45) with 35184372088832 in H. lra.
Qed.

Lemma SF2R_c100 : SF2R c100 = 100%R.
Proof.
  unfold c100. rewrite SF2R_pos. pose proof (bpow_neg_value 46) as H.
  change (2 ^ 46) with 70368744177664 in H. lra.
Qed.

Lemma value_ge_min (m : positive) (e : Z) :
  bounded prec emax m e = true ->
  (bpow (-1074) <= SF2R (S754_finite false m e))%R.
Proof.
  intros B. apply bounded_spec in B. rewrite SF2R_pos.
  apply Rle_trans with (bpow e); [apply bpow_le; lia|].
  pose proof (bpow_gt_0 e). assert (1 <= IZR (Zpos m))%R by (apply IZR_le; lia).
  nra.
Qed.

Lemma mag_le (x : R) (k b : Z) :
  (bpow (k - 1) <= x)%R -> (x < bpow b)%R -> k <= b.
Proof.
  intros H1 H2. assert (bpow (k - 1) < bpow b)%R by lra.
  apply bpow_lt_inv in H. lia.
Qed.

Lemma mul180_rounds_to (m : positive) (e : Z) :
  bounded prec emax m e = true ->
  (SF2R (S754_finite false m e) <= 100)%R ->
  let x := (SF2R (S754_finite false m e) * 180)%R in
  rounds_to x (SF2R (SFmul prec emax (S754_finite false m e) c180)) /\
  exists m' e', SFmul prec emax (S754_finite false m e) c180 = S754_finite false m' e'.
Proof.
  intros B Hv x.
  pose proof (value_ge_min m e B) as Hmin.
  assert (Hx : (bpow (-1074) <= x < bpow 15)%R).
  { unfold x. rewrite (bpow_pos_value 15). change (2 ^ 15) with 32768.
    pose proof (bpow_gt_0 (-1074)). lra. }
  unfold SFmul, c180. cbn [xorb].
  set (p := (m * 6333186975989760)%positive).
  assert (Hloc : located (x * bpow (- (e + -45))) (Zpos p) loc_Exact).
  { simpl. unfold x, p. rewrite Pos2Z.inj_mul, mult_IZR, <- SF2R_c180.
    unfold c180. rewrite !SF2R_pos.
    assert (E : (bpow e * bpow (-45) * bpow (- (e + -45)))%R = 1%R).
    { rewrite <- !bpow_add. replace (e + -45 + - (e + -45)) with 0 by lia.
      apply bpow_0. }
    set (u := IZR (Zpos m)) in *. set (w := IZR 6333186975989760) in *.
    transitivity (u * w * (bpow e * bpow (-45) * bpow (- (e + -45))))%R; [ring|].
    rewrite E. ring. }
  pose proof (located_mag x p (e + -45) loc_Exact Hloc) as [Hk1 Hk2].
  assert (Hd : 53 <= Zpos (digits2_pos p)).
  { destruct (digits2_bounds p) as [_ Hhi].
    assert (2 ^ 52 < 2 ^ Zpos (digits2_pos p)).
    { apply Z.le_lt_trans with (2 := Hhi). unfold p.
      rewrite Pos2Z.inj_mul. change (2 ^ 52) with 4503599627370496. nia. }
    apply Z.pow_lt_mono_r_iff in H; lia. }
  destruct (binary_round_aux_rounds_to x p (e + -45) loc_Exact Hloc) as [H1 H2].
  - rewrite fexp_eq. lia.
  - pose proof (mag_le x _ 15 Hk1 (proj2 Hx)). lia.
  - split; [exact H1|apply H2, Hx].
Qed.

Lemma new_location_located (y : R) (q r M : Z) :
  0 < M -> Z.even M = true -> 0 <= r < M ->
  (y * IZR M)%R = (IZR M * IZR q + IZR r)%R ->
  located y q (new_location M r).
Proof.
  intros HM Hev Hr Hy. unfold new_location. rewrite Hev.
  unfold new_location_even.
  assert (HMR : (0 < IZR M)%R) by now apply IZR_lt.
  set (t := (y - IZR q)%R).
  assert (Ht : (t * IZR M)%R = IZR r) by (unfold t; lra).
  destruct (Z.eqb_spec r 0) as [E|NE].
  - simpl. subst r. assert (t = 0)%R by nra. unfold t in H. lra.
  - assert (Hr0 : (0 < IZR r)%R) by (apply IZR_lt; lia).
    assert (Ht0 : (0 < t)%R) by nra.
    destruct (Z.compare_spec (2 * r) M) as [E|L|G]; simpl.
    + assert (2 * IZR r = IZR M)%R by (rewrite <- E, mult_IZR; lra).
      assert (t = / 2)%R by nra. unfold t in H0. lra.
    + assert (2 * IZR r < IZR M)%R by (rewrite <- mult_IZR; now apply IZR_lt).
      assert (t < / 2)%R by nra. unfold t in *. lra.
    + assert (IZR M < 2 * IZR r)%R by (rewrite <- mult_IZR; now apply IZR_lt).
      assert (IZR r < IZR M)%R by (apply IZR_lt; lia).
      assert (/ 2 < t < 1)%R by nra. unfold t in *. lra.
Qed.

Lemma div100_rounds_to (m : positive) (e : Z) :
  bounded prec emax m e = true ->
  (180 * bpow (-1074) <= SF2R (S754_finite false m e) <= 18000)%R ->
  let x := (SF2R (S754_finite false m e) / 100)%R in
  rounds_to x (SF2R (SFdiv prec emax (S754_finite false m e) c100)) /\
  exists m' e', SFdiv prec emax (S754_finite false m e) c100 = S754_finite false m' e'.
Proof.
  intros B [Hlo Hhi] x.
  pose proof (bpow_gt_0 (-1074)) as Hpmin.
  pose proof (finite_value_bounds m e) as [HX1 HX2].
  set (X := SF2R (S754_finite false m e)) in *.
  set (d1 := Zpos (digits2_pos m)) in *.
  assert (Hx : (bpow (-1074) <= x < bpow 8)%R).
  { unfold x. rewrite (bpow_pos_value 8). change (2 ^ 8) with 256. lra. }
  assert (Hx2 : (bpow (d1 + e - 8) <= x)%R).
  { replace (d1 + e - 1) with (d1 + e - 8 + 7) in HX1 by lia.
    rewrite bpow_add, (bpow_pos_value 7) in HX1. change (2 ^ 7) with 128 in HX1.
    pose proof (bpow_gt_0 (d1 + e - 8)). unfold x. lra. }
  unfold SFdiv, c100, SFdiv_core_binary. cbn [xorb].
  change (Zdigits2 (Zpos m)) with d1.
  change (Zdigits2 7036874417766400) with 53.
  set (e' := Z.min (fexp prec emax (d1 + e - (53 + -46))) (e - -46)).
  assert (He' : e' <= Z.max (d1 + e - 60) (-1074) /\ e' <= e + 46 /\
                e' <= fexp prec emax (d1 + e - 7)).
  { unfold e'. rewrite !fexp_eq. lia. }
  set (s := e - -46 - e').
  assert (Hs : 0 <= s) by (unfold s; lia).
  set (m' := match s with
             | 0 => Zpos m
             | Zpos _ => Z.shiftl (Zpos m) s
             | Zneg _ => 0
             end).
  assert (Hm' : m' = Zpos m * 2 ^ s).
  { unfold m'. destruct s as [|ps|ps]; [lia| |lia].
    apply Z.shiftl_mul_pow2. lia. }
  pose proof (Z_div_mod m' 7036874417766400 eq_refl) as D.
  destruct (Z.div_eucl m' 7036874417766400) as [q r].
  destruct D as [Dq Dr].
  set (y := (x * bpow (- e'))%R).
  assert (Hy : (y * IZR 7036874417766400)%R = (IZR 7036874417766400 * IZR q + IZR r)%R).
  { rewrite <- mult_IZR, <- plus_IZR, <- Dq, Hm', mult_IZR, <- bpow_IZR by lia.
    unfold y, x, X. rewrite SF2R_pos.
    assert (E : bpow s = (bpow e * bpow (- e') * bpow 46)%R).
    { rewrite <- !bpow_add. f_equal. unfold s. lia. }
    rewrite E.
    assert (W : IZR 7036874417766400 = (100 * bpow 46)%R).
    { rewrite (bpow_pos_value 46). change (2 ^ 46) with 70368744177664. lra. }
    rewrite W. field. }
  assert (Hloc : located y q (new_location 7036874417766400 r)).
  { apply new_location_located; trivial; lia. }
  assert (Hy1 : (1 <= y)%R).
  { unfold y. rewrite <- (bpow_opp_r e'). apply bpow_scale_le.
    destruct (Z.max_spec (d1 + e - 60) (-1074)) as [[_ Em]|[_ Em]].
    - apply Rle_trans with (bpow (-1074)); [apply bpow_le; lia|apply Hx].
    - apply Rle_trans with (bpow (d1 + e - 8)); [apply bpow_le; lia|exact Hx2]. }
  assert (Hq : 0 < q).
  { apply located_bounds in Hloc.
    assert (IZR 0 < IZR (q + 1))%R by (rewrite plus_IZR; lra).
    apply lt_IZR in H. destruct (Z.eq_dec q 0) as [E|NE]; [|lia].
    subst q. simpl in Hloc. lra. }
  destruct q as [|pq|pq]; try lia.
  pose proof (located_mag x pq e' _ Hloc) as [Hk1 Hk2].
  destruct (binary_round_aux_rounds_to x pq e' _ Hloc) as [H1 H2].
  - assert (bpow (d1 + e - 8) < bpow (Zpos (digits2_pos pq) + e'))%R by lra.
    apply bpow_lt_inv in H. rewrite !fexp_eq in *. lia.
  - pose proof (mag_le x _ 8 Hk1 (proj2 Hx)). lia.
  - split; [exact H1|apply H2, Hx].
Qed.

Lemma add180_rounds_to (m : positive) (e : Z) :
  bounded prec emax m e = true ->
  (SF2R (S754_finite false m e) <= 180)%R ->
  let x := (180 + SF2R (S754_finite false m e))%R in
  rounds_to x (SF2R (SFadd prec emax c180 (S754_finite false m e))) /\
  exists m' e', SFadd prec emax c180 (S754_finite false m e) = S754_finite false m' e'.
Proof.
  intros B Hhi x.
  pose proof (value_ge_min m e B) as Hlo.
  pose proof (bpow_gt_0 (-1074)) as Hpmin.
  unfold SFadd, c180. cbn [cond_Zopp].
  set (ez := Z.min (-45) e).
  pose proof (shl_align_spec 6333186975989760 (-45) ez) as S1.
  pose proof (shl_align_spec m e ez) as S2.
  destruct (shl_align 6333186975989760 (-45) ez) as [m1 e1].
  destruct (shl_align m e ez) as [m2 e2].
  destruct S1 as [E1 V1]. destruct S2 as [E2 V2]. cbn [fst].
  assert (F1 : e1 = ez) by (unfold ez in *; lia).
  assert (F2 : e2 = ez) by (unfold ez in *; lia).
  rewrite F1 in V1. rewrite F2 in V2.
  change (Zpos m1 + Zpos m2) with (Zpos (m1 + m2)).
  cbn [binary_normalize].
  assert (Ex : x = (IZR (Zpos (m1 + m2)) * bpow ez)%R).
  { rewrite Pos2Z.inj_add, plus_IZR, Rmult_plus_distr_r, V1, V2.
    unfold x. rewrite <- SF2R_c180. reflexivity. }
  destruct (binary_round_rounds_to (m1 + m2) ez) as [H1 H2].
  - rewrite <- Ex. unfold x. rewrite (bpow_pos_value 1000).
    apply Rle_lt_trans with 360%R; [lra|].
    apply IZR_lt. reflexivity.
  - rewrite <- Ex in H1, H2. split; [exact H1|].
    apply H2. unfold x. lra.
Qed.

(** ** The angle of a value *)

Lemma valid_rounds_to_self (m : positive) (e : Z) :
  bounded prec emax m e = true ->
  rounds_to (SF2R (S754_finite false m e)) (SF2R (S754_finite false m e)).
Proof.
  intros B. destruct (bounded_spec m e B) as [E _].
  exists (Zpos (digits2_pos m) + e), (Zpos m).
  rewrite fexp_eq, E. split; [apply finite_value_bounds|].
  split; [|apply SF2R_pos].
  rewrite SF2R_pos, Rmult_assoc, bpow_opp_r, Rmult_1_r. apply rne_exact.
Qed.

Lemma rounds_to_180 : rounds_to 180 180.
Proof. rewrite <- SF2R_c180. now apply valid_rounds_to_self. Qed.

Lemma rounds_to_360 : rounds_to 360 360.
Proof.
  assert (E : SF2R (S754_finite false 6333186975989760 (-44)) = 360%R).
  { rewrite SF2R_pos. pose proof (bpow_neg_value 44) as H.
    change (2 ^ 44) with 17592186044416 in H. lra. }
  rewrite <- E. now apply valid_rounds_to_self.
Qed.

Lemma rounds_to_18000 : rounds_to 18000 18000.
Proof.
  assert (E : SF2R (S754_finite false 4947802324992000 (-38)) = 18000%R).
  { rewrite SF2R_pos. pose proof (bpow_neg_value 38) as H.
    change (2 ^ 38) with 274877906944 in H. lra. }
  rewrite <- E. now apply valid_rounds_to_self.
Qed.

Lemma rounds_to_least : rounds_to (180 * bpow (-1074)) (180 * bpow (-1074)).
Proof.
  change (180 * bpow (-1074))%R with (SF2R (S754_finite false 180 (-1074))).
  now apply valid_rounds_to_self.
Qed.

Lemma float_of_180 : Prim2SF (Py.int_to_float 180) = c180.
Proof. reflexivity. Qed.

Lemma float_of_100 : Prim2SF (Py.int_to_float 100) = c100.
Proof. reflexivity. Qed.

Lemma angle_of_float (f : float) :
  angle_of (Py.PyFloat f) =
  Py.PyFloat (Py.int_to_float 180
              + (f - Py.int_to_float 0) * Py.int_to_float 180
                / Py.int_to_float 100)%float.
Proof. reflexivity. Qed.

Lemma valid_finite (f : float) (s : bool) (m : positive) (e : Z) :
  Prim2SF f = S754_finite s m e -> bounded prec emax m e = true.
Proof. intros E. pose proof (Prim2SF_valid f) as V. now rewrite E in V. Qed.

(** The float operations of [angle_of] on a positive float up to 100:
    each rounds the exact result, and the last gives a positive float
    between 180 and 360. *)
Lemma angle_steps (f : float) (m : positive) (e : Z) :
  Prim2SF f = S754_finite false m e ->
  (SF2R (S754_finite false m e) <= 100)%R ->
  exists (X Y : R) (mz : positive) (ez : Z),
    rounds_to (SF2R (S754_finite false m e) * 180) X /\
    rounds_to (X / 100) Y /\
    rounds_to (180 + Y) (SF2R (S754_finite false mz ez)) /\
    Prim2SF (Py.to_float (angle_of (Py.PyFloat f))) = S754_finite false mz ez /\
    bounded prec emax mz ez = true /\
    (180 <= SF2R (S754_finite false mz ez) <= 360)%R.
Proof.
  intros Ef Hv.
  pose proof (valid_finite f _ _ _ Ef) as B.
  pose proof (value_ge_min m e B) as Hmin.
  pose proof (bpow_gt_0 (-1074)) as Hp.
  rewrite angle_of_float. cbn [Py.to_float].
  set (f1 := (f - Py.int_to_float 0)%float).
  assert (E1 : Prim2SF f1 = S754_finite false m e).
  { unfold f1. rewrite sub_spec, Ef. reflexivity. }
  set (f2 := (f1 * Py.int_to_float 180)%float).
  assert (E2 : Prim2SF f2 = SFmul prec emax (S754_finite false m e) c180).
  { unfold f2. rewrite mul_spec, E1, float_of_180. reflexivity. }
  destruct (mul180_rounds_to m e B Hv) as [RX (mx & ex & EX)].
  cbv zeta in RX. rewrite EX in RX, E2.
  pose proof (valid_finite f2 _ _ _ E2) as BX.
  set (X := SF2R (S754_finite false mx ex)) in *.
  assert (HX : (180 * bpow (-1074) <= X <= 18000)%R).
  { split.
    - apply (rounds_to_mono (180 * bpow (-1074)) (SF2R (S754_finite false m e) * 180));
        [lra|apply rounds_to_least|exact RX].
    - apply (rounds_to_mono (SF2R (S754_finite false m e) * 180) 18000);
        [lra|exact RX|apply rounds_to_18000]. }
  set (f3 := (f2 / Py.int_to_float 100)%float).
  assert (E3 : Prim2SF f3 = SFdiv prec emax (S754_finite false mx ex) c100).
  { unfold f3. rewrite div_spec, E2, float_of_100. reflexivity. }
  destruct (div100_rounds_to mx ex BX HX) as [RY (my & ey & EY)].
  cbv zeta in RY. fold X in RY. rewrite EY in RY, E3.
  pose proof (valid_finite f3 _ _ _ E3) as BY.
  set (Y := SF2R (S754_finite false my ey)) in *.
  assert (HY : (bpow (-1074) <= Y <= 180)%R).
  { split; [apply (value_ge_min my ey BY)|].
    apply (rounds_to_mono (X / 100) 180); [lra|exact RY|apply rounds_to_180]. }
  set (g := (Py.int_to_float 180 + f3)%float).
  assert (E4 : Prim2SF g = SFadd prec emax c180 (S754_finite false my ey)).
  { unfold g. rewrite add_spec, E3, float_of_180. reflexivity. }
  destruct (add180_rounds_to my ey BY (proj2 HY)) as [RZ (mz & ez & EZ)].
  cbv zeta in RZ. fold Y in RZ. rewrite EZ in RZ, E4.
  pose proof (valid_finite g _ _ _ E4) as BZ.
  exists X, Y, mz, ez. repeat split; trivial.
  - apply (rounds_to_mono 180 (180 + Y)); [lra|apply rounds_to_180|exact RZ].
  - apply (rounds_to_mono (180 + Y) 360); [lra|exact RZ|apply rounds_to_360].
Qed.

Lemma angle_of_zero (f : float) (s : bool) :
  Prim2SF f = S754_zero s ->
  Prim2SF (Py.to_float (angle_of (Py.PyFloat f))) = c180.
Proof.
  intros Ef. rewrite angle_of_float. cbn [Py.to_float].
  rewrite add_spec, div_spec, mul_spec, sub_spec, Ef, float_of_180, float_of_100.
  now destruct s.
Qed.

(** A float in the range is a zero or a positive float up to 100. *)
Lemma in_range_float (f : float) :
  in_range (Py.PyFloat f) = true ->
  (exists s, Prim2SF f = S754_zero s) \/
  (exists m e, Prim2SF f = S754_finite false m e /\
               (SF2R (S754_finite false m e) <= 100)%R).
Proof.
  unfold in_range. rewrite andb_true_iff. simpl.
  rewrite !FloatAxioms.leb_spec, float_of_MIN_VALUE, float_of_MAX_VALUE.
  intros [H0 H1].
  pose proof (Prim2SF_valid f) as V.
  destruct (Prim2SF f) as [s|s| |s m e].
  - left. now exists s.
  - destruct s; discriminate.
  - discriminate.
  - destruct s; [discriminate|]. right. exists m, e. split; [reflexivity|].
    rewrite <- SF2R_c100. now apply SFleb_value.
Qed.

Lemma angle_float_monotone (f g : float) :
  in_range (Py.PyFloat f) = true ->
  in_range (Py.PyFloat g) = true ->
  (f <=? g)%float = true ->
  (Py.to_float (angle_of (Py.PyFloat f))
   <=? Py.to_float (angle_of (Py.PyFloat g)))%float = true.
Proof.
  intros Rf Rg Hle. rewrite FloatAxioms.leb_spec in *.
  destruct (in_range_float f Rf) as [[s Ef]|(m & e & Ef & Hf)];
    destruct (in_range_float g Rg) as [[t Eg]|(n & k & Eg & Hg)].
  - now rewrite (angle_of_zero f s Ef), (angle_of_zero g t Eg).
  - rewrite (angle_of_zero f s Ef).
    destruct (angle_steps g n k Eg Hg) as (X & Y & mz & ez & _ & _ & _ & E & B & H).
    rewrite E. apply value_SFleb; trivial.
    change (S754_finite false 6333186975989760 (-45)) with c180.
    rewrite SF2R_c180. lra.
  - rewrite Ef, Eg in Hle. discriminate Hle.
  - rewrite Ef, Eg in Hle.
    pose proof (valid_finite f _ _ _ Ef) as Bf.
    pose proof (valid_finite g _ _ _ Eg) as Bg.
    apply SFleb_value in Hle; trivial.
    destruct (angle_steps f m e Ef Hf) as (X1 & Y1 & m1 & e1 & RX1 & RY1 & RZ1 & E1 & B1 & _).
    destruct (angle_steps g n k Eg Hg) as (X2 & Y2 & m2 & e2 & RX2 & RY2 & RZ2 & E2 & B2 & _).
    rewrite E1, E2. apply value_SFleb; trivial.
    assert (HX : (X1 <= X2)%R).
    { apply (rounds_to_mono _ _ _ _ (Rmult_le_compat_r 180 _ _ ltac:(lra) Hle) RX1 RX2). }
    assert (HY : (Y1 <= Y2)%R).
    { apply (rounds_to_mono (X1 / 100) (X2 / 100)); trivial. lra. }
    apply (rounds_to_mono (180 + Y1) (180 + Y2)); trivial. lra.
Qed.



(** The ints of the range, one by one. *)
Lemma range_from_In (n : nat) :
  forall start z : Z,
    start <= z < start + Z.of_nat n -> In z (Py.range_from n start 1).
Proof.
  induction n as [|n IH]; intros start z Hz.
  - lia.
  - simpl. destruct (Z.eq_dec start z) as [E|NE]; [now left|].
    right. apply IH. lia.
Qed.

Lemma small_int_listed (z : Z) : 0 <= z <= 100 -> In z (Py.range 0 101 1).
Proof. intros Hz. apply (range_from_In 101 0 z). lia. Qed.

Lemma angle_of_int (z : Z) :
  angle_of (Py.PyInt z) =
  Py.PyFloat (Py.int_to_float 180
              + Py.int_truediv ((z - 0) * 180) (100 - 0))%float.
Proof. reflexivity. Qed.

(** For an int of the range the angle is that of the int as a float, and
    the int as a float is in the range. *)
Lemma small_int_as_float (z : Z) :
  0 <= z <= 100 ->
  angle_of (Py.PyInt z) = angle_of (Py.PyFloat (Py.int_to_float z)) /\
  in_range (Py.PyFloat (Py.int_to_float z)) = true.
Proof.
  intros Hz. apply small_int_listed in Hz.
  assert (H : forallb
                (fun z =>
                   Leibniz.eqb (Py.to_float (angle_of (Py.PyInt z)))
                     (Py.to_float (angle_of (Py.PyFloat (Py.int_to_float z))))
                   && in_range (Py.PyFloat (Py.int_to_float z)))
                (Py.range 0 101 1) = true) by (vm_compute; reflexivity).
  rewrite forallb_forall in H. specialize (H z Hz).
  apply andb_true_iff in H. destruct H as [H1 H2]. split; [|exact H2].
  apply FloatAxioms.Leibniz.eqb_spec in H1.
  rewrite angle_of_int, angle_of_float in *. cbn [Py.to_float] in H1.
  now rewrite H1.
Qed.

Lemma small_ints_ordered (a b : Z) :
  0 <= a <= 100 -> 0 <= b <= 100 -> a <= b ->
  (Py.int_to_float a <=? Py.int_to_float b)%float = true.
Proof.
  intros Ha Hb Hab. apply small_int_listed in Ha, Hb.
  assert (H : forallb
                (fun a =>
                   forallb
                     (fun b =>
                        implb (a <=? b)
                          (Py.int_to_float a <=? Py.int_to_float b)%float)
                     (Py.range 0 101 1))
                (Py.range 0 101 1) = true) by (vm_compute; reflexivity).
  rewrite forallb_forall in H. specialize (H a Ha).
  rewrite forallb_forall in H. specialize (H b Hb).
  apply Z.leb_le in Hab. now rewrite Hab in H.
Qed.

Lemma in_range_int (z : Z) : in_range (Py.PyInt z) = true -> 0 <= z <= 100.
Proof.
  unfold in_range, MIN_VALUE, MAX_VALUE. simpl. lia.
Qed.

(** A value of the range as a float: the same angle, in the range, and in
    the same order. *)
Lemma in_range_as_float (v : Py.num) :
  in_range v = true ->
  angle_of v = angle_of (Py.PyFloat (Py.to_float v)) /\
  in_range (Py.PyFloat (Py.to_float v)) = true.
Proof.
  destruct v as [z|f]; intros H; [|now split].
  apply small_int_as_float. now apply in_range_int.
Qed.

Lemma le_as_float (v w : Py.num) :
  in_range v = true -> in_range w = true -> Py.le v w = true ->
  (Py.to_float v <=? Py.to_float w)%float = true.
Proof.
  destruct v as [a|f], w as [b|g]; intros Hv Hw H; trivial.
  simpl in H. apply Z.leb_le in H.
  apply small_ints_ordered; trivial; now apply in_range_int.
Qed.

(** X1: the angle of the needle does not decrease as the value grows: for two
    values of the range, ints or floats, in order, the angles the
    program computes are in the same order. *)
Theorem angle_of_monotone (v w : Py.num) :
  in_range v = true -> in_range w = true ->
  Py.le v w = true ->
  Py.le (angle_of v) (angle_of w) = true.
Proof.
  intros Hv Hw Hle.
  destruct (in_range_as_float v Hv) as [Ev Rv].
  destruct (in_range_as_float w Hw) as [Ew Rw].
  rewrite Ev, Ew.
  exact (angle_float_monotone _ _ Rv Rw (le_as_float v w Hv Hw Hle)).
Qed.


Lemma angle_of_monotone_example :
  in_range (Py.PyFloat 25) = true /\
  in_range (Py.PyInt 26) = true /\
  Py.le (angle_of (Py.PyFloat 25)) (angle_of (Py.PyInt 26)) = true.
Proof.
  split; [reflexivity|]. split; [reflexivity|].
  apply (angle_of_monotone (Py.PyFloat 25) (Py.PyInt 26)); reflexivity.
Defined.


(** X3: the needle points to the two ends of the dial exactly at the two
    bounds: the angle is the float 180 for every number equal to
    [MIN_VALUE] (the int 0, the floats 0.0 and -0.0) and the float 360 for
    every number equal to [MAX_VALUE]. *)
Theorem angle_of_ends (v : Py.num) :
  (Py.eq v MIN_VALUE = true -> angle_of v = Py.PyFloat 180) /\
  (Py.eq v MAX_VALUE = true -> angle_of v = Py.PyFloat 360).
Proof.
  destruct v as [z|f]; simpl; split.
  - rewrite Z.eqb_eq. now intros ->.
  - rewrite Z.eqb_eq. now intros ->.
  - rewrite FloatAxioms.eqb_spec, float_of_MIN_VALUE. intros H.
    apply SFeqb_true in H. destruct H as [H|(s & t & H & _)].
    + apply (Prim2SF_inj f 0%float) in H. now subst f.
    + destruct s.
      * apply (Prim2SF_inj f (-0)%float) in H. now subst f.
      * apply (Prim2SF_inj f 0%float) in H. now subst f.
  - rewrite FloatAxioms.eqb_spec, float_of_MAX_VALUE. intros H.
    apply SFeqb_true in H. destruct H as [H|(s & t & _ & H)]; [|discriminate H].
    apply (Prim2SF_inj f 100%float) in H. now subst f.
Qed.

(** ** Entries Python's [float] does not read *)





Lemma resize_after_error_example :
  let app := set_entry "abc" (init sample_cos sample_sin 520 430) in
  Py.float (entry app) = None /\
  canvas (handle sample_cos sample_sin Py.float
            (update_value sample_cos sample_sin Py.float app)
            (Configure 300 200)) =
  gauge_items sample_cos sample_sin 300 200 (Py.PyInt 25).
Proof.
  cbv zeta. split; [reflexivity|].
  apply (resize_after_error_restores_gauge sample_cos sample_sin Py.float
           (set_entry "abc" (init sample_cos sample_sin 520 430)) 300 200).
  left. reflexivity.
Defined.

Lemma stores_range_or_nan_example :
  let app := set_entry "150" (init sample_cos sample_sin 520 430) in
  Py.float (entry app) = Some 150%float /\
  in_range (Py.PyFloat 150) = false /\
  value (update_value sample_cos sample_sin Py.float app) = Py.PyInt 25.
Proof.
  cbv zeta. split; [reflexivity|]. split; [reflexivity|].
  apply (update_value_stores_range_or_nan sample_cos sample_sin Py.float
           (set_entry "150" (init sample_cos sample_sin 520 430)) 150%float).
  - reflexivity.
  - split; reflexivity.
Defined.

(** ** The colour grows with the value *)

Lemma finite_value_pos (m : positive) (e : Z) :
  (0 < SF2R (S754_finite false m e))%R.
Proof.
  rewrite SF2R_pos. pose proof (bpow_gt_0 e).
  assert (0 < IZR (Zpos m))%R by (apply IZR_lt; lia). nra.
Qed.

Lemma nonneg_ltb_value (x y : spec_float) :
  nonneg x -> nonneg y -> SFltb x y = true -> (SF2R x < SF2R y)%R.
Proof.
  destruct x as [s|s| |[|] m e], y as [t|t| |[|] n k]; simpl;
    try contradiction; try discriminate; intros Bx By H.
  - apply (finite_value_pos n k).
  - now apply SFltb_value.
Qed.

Lemma nonneg_leb_value (x y : spec_float) :
  nonneg x -> nonneg y -> SFleb x y = true -> (SF2R x <= SF2R y)%R.
Proof.
  destruct x as [s|s| |[|] m e], y as [t|t| |[|] n k]; simpl;
    try contradiction; try discriminate; intros Bx By H.
  - lra.
  - apply Rlt_le, (finite_value_pos n k).
  - now apply SFleb_value.
Qed.

Lemma nonneg_value_ltb (x y : spec_float) :
  nonneg x -> nonneg y -> (SF2R x < SF2R y)%R -> SFltb x y = true.
Proof.
  intros Bx By H.
  destruct (SFltb x y) eqn:L; trivial. exfalso.
  assert (Hx : SFeqb x x = true) by (destruct x as [s|s| |[|] m e]; simpl in Bx;
    try contradiction; unfold SFeqb; simpl;
    now rewrite ?Z.compare_refl, ?Pos.compare_cont_refl).
  assert (Hy : SFeqb y y = true) by (destruct y as [s|s| |[|] m e]; simpl in By;
    try contradiction; unfold SFeqb; simpl;
    now rewrite ?Z.compare_refl, ?Pos.compare_cont_refl).
  pose proof (SFltb_false_leb x y Hx Hy L) as G.
  apply nonneg_leb_value in G; trivial. lra.
Qed.

Lemma in_range_nonneg (f : float) :
  in_range (Py.PyFloat f) = true -> nonneg (Prim2SF f).
Proof.
  intros H. destruct (in_range_float f H) as [[s E]|(m & e & E & _)].
  - now rewrite E.
  - pose proof (valid_finite f _ _ _ E) as B. now rewrite E.
Qed.

Lemma needle_color_float_monotone (f g : float) :
  in_range (Py.PyFloat f) = true -> in_range (Py.PyFloat g) = true ->
  (f <=? g)%float = true ->
  (Py.lt (Py.PyFloat g) NORMAL_MIN = true -> Py.lt (Py.PyFloat f) NORMAL_MIN = true) /\
  (Py.gt (Py.PyFloat f) NORMAL_MAX = true -> Py.gt (Py.PyFloat g) NORMAL_MAX = true).
Proof.
  intros Rf Rg Hle. apply in_range_nonneg in Rf, Rg.
  rewrite FloatAxioms.leb_spec in Hle.
  apply nonneg_leb_value in Hle; trivial.
  unfold Py.gt. simpl.
  rewrite !FloatAxioms.ltb_spec, float_of_NORMAL_MIN, float_of_NORMAL_MAX.
  split; intros H; apply nonneg_ltb_value in H; trivial; try reflexivity;
    apply nonneg_value_ltb; trivial; try reflexivity; lra.
Qed.

Lemma small_int_classes (z : Z) :
  0 <= z <= 100 ->
  Py.lt (Py.PyInt z) NORMAL_MIN = Py.lt (Py.PyFloat (Py.int_to_float z)) NORMAL_MIN /\
  Py.gt (Py.PyInt z) NORMAL_MAX = Py.gt (Py.PyFloat (Py.int_to_float z)) NORMAL_MAX.
Proof.
  intros Hz. apply small_int_listed in Hz.
  assert (H : forallb
                (fun z =>
                   Bool.eqb (Py.lt (Py.PyInt z) NORMAL_MIN)
                     (Py.lt (Py.PyFloat (Py.int_to_float z)) NORMAL_MIN)
                   && Bool.eqb (Py.gt (Py.PyInt z) NORMAL_MAX)
                        (Py.gt (Py.PyFloat (Py.int_to_float z)) NORMAL_MAX))
                (Py.range 0 101 1) = true) by (vm_compute; reflexivity).
  rewrite forallb_forall in H. specialize (H z Hz).
  apply andb_true_iff in H. destruct H as [H1 H2].
  apply Bool.eqb_prop in H1, H2. now split.
Qed.

Lemma classes_as_float (v : Py.num) :
  in_range v = true ->
  Py.lt v NORMAL_MIN = Py.lt (Py.PyFloat (Py.to_float v)) NORMAL_MIN /\
  Py.gt v NORMAL_MAX = Py.gt (Py.PyFloat (Py.to_float v)) NORMAL_MAX.
Proof.
  destruct v as [z|f]; intros H; [|now split].
  apply small_int_classes. now apply in_range_int.
Qed.

Lemma cold_is_below (v : Py.num) :
  needle_color v = COLOR_NEEDLE_COLD <-> Py.lt v NORMAL_MIN = true.
Proof.
  unfold needle_color. destruct (Py.lt v NORMAL_MIN).
  - now split.
  - destruct (Py.gt v NORMAL_MAX); split; discriminate.
Qed.

Lemma hot_is_above (v : Py.num) :
  needle_color v = COLOR_NEEDLE_HOT <-> Py.gt v NORMAL_MAX = true.
Proof.
  split.
  - unfold needle_color. destruct (Py.lt v NORMAL_MIN); [discriminate|].
    destruct (Py.gt v NORMAL_MAX); [trivial|discriminate].
  - intros H. unfold needle_color.
    now rewrite (gt_max_not_lt_min v H), H.
Qed.

(** X4: the colour follows the order of the values: of two values of the
    range in order, if the larger is drawn cold so is the smaller, and if
    the smaller is drawn hot so is the larger. *)
Theorem needle_color_monotone (v w : Py.num) :
  in_range v = true -> in_range w = true ->
  Py.le v w = true ->
  (needle_color w = COLOR_NEEDLE_COLD -> needle_color v = COLOR_NEEDLE_COLD) /\
  (needle_color v = COLOR_NEEDLE_HOT -> needle_color w = COLOR_NEEDLE_HOT).
Proof.
  intros Hv Hw Hle.
  destruct (in_range_as_float v Hv) as [_ Rv].
  destruct (in_range_as_float w Hw) as [_ Rw].
  destruct (classes_as_float v Hv) as [Lv Gv].
  destruct (classes_as_float w Hw) as [Lw Gw].
  destruct (needle_color_float_monotone _ _ Rv Rw (le_as_float v w Hv Hw Hle))
    as [Hcold Hhot].
  rewrite !cold_is_below, !hot_is_above, Lv, Lw, Gv, Gw. now split.
Qed.

Lemma needle_color_monotone_example :
  in_range (Py.PyInt 31) = true /\
  in_range (Py.PyFloat 80.5) = true /\
  Py.le (Py.PyInt 31) (Py.PyFloat 80.5) = true /\
  needle_color (Py.PyFloat 80.5) = COLOR_NEEDLE_HOT.
Proof.
  split; [reflexivity|]. split; [reflexivity|]. split; [reflexivity|].
  apply (needle_color_monotone (Py.PyInt 31) (Py.PyFloat 80.5));
    reflexivity.
Defined.

(** ** What a new value changes on the canvas *)

(** X11: the value moves the needle and rewrites the readout, and nothing
    else: on a canvas of a given size the shadow, the arc, the ticks,
    their labels and the pivot are the same items, in the same order,
    whatever the value. *)
Theorem value_changes_needle_and_readout_only
  (cos sin : float -> float) (w h : Z) (v v' : Py.num) :
  let fixed (it : item) := negb (is_needle it || is_readout it) in
  filter fixed (gauge_items cos sin w h v) =
  filter fixed (gauge_items cos sin w h v') /\
  List.length (filter fixed (gauge_items cos sin w h v)) = 15%nat /\
  List.length (filter is_needle (gauge_items cos sin w h v)) = 1%nat /\
  List.length (filter is_readout (gauge_items cos sin w h v)) = 1%nat.
Proof.
  cbv zeta. rewrite !gauge_items_unrolled. cbv zeta. repeat split.
Qed.
